(** * Turtle graphics in pseudo 3D: a shallow embedding of [turtle-graphics.js]

    The turtle moves in 3D space and is projected on the x,y-plane of a
    canvas.  Numbers are taken over the reals: the JavaScript doubles of the
    source are idealised as [R], [Math.cos], [Math.sin] and [Math.PI] as
    [cos], [sin] and [PI].  Where rounding decides, module [Double] has the
    vector functions and the three rotations in IEEE double arithmetic.  *)

From Stdlib Require Import Reals Lra Lia List Ascii String Arith.
From Stdlib Require PrimFloat.
Import ListNotations.

Open Scope R_scope.

(** ** Private constants *)

(** A vector in 3D space is stored as a 3-element array; [x], [y], [z] index
    it. *)
Definition x : nat := 0.
Definition y : nat := 1.
Definition z : nat := 2.

(** Conversion factor for degrees to radians. *)
Definition Degree : R := PI / 180.

(** ** Vectors *)

Record vector : Type := Vec { v0 : R; v1 : R; v2 : R }.

(** [u[c]] for an index [c] in [x .. z]. *)
Definition idx (u : vector) (c : nat) : R :=
  match c with
  | O => v0 u
  | S O => v1 u
  | _ => v2 u
  end.

(** The loop [for (var c = x; c <= z; ++c) result[c] = body c] that fills a
    fresh array. *)
Definition forXZ (body : nat -> R) : vector :=
  Vec (body x) (body y) (body z).

(** [linear(a, u, b, v)]: result = a * u + b * v. *)
Definition linear (a : R) (u : vector) (b : R) (v : vector) : vector :=
  forXZ (fun c => a * idx u c + b * idx v c).

(** [cross(u, v)]: cross product of u and v. *)
Definition cross (u v : vector) : vector :=
  forXZ (fun c =>
    idx u ((c+1) mod 3) * idx v ((c+2) mod 3)
    - idx u ((c+2) mod 3) * idx v ((c+1) mod 3)).

(** [rotateNormal(u, v, w, alpha)]: u rotated in direction of v about w over
    alpha (radians); [w] is not used by the body. *)
Definition rotateNormal (u v w : vector) (alpha : R) : vector :=
  linear (cos alpha) u (sin alpha) v.

(** Notions used to state properties of vectors. *)
Definition dot (u v : vector) : R :=
  v0 u * v0 v + v1 u * v1 v + v2 u * v2 v.

Definition norm (u : vector) : R := sqrt (dot u u).

Definition vopp (u : vector) : vector := Vec (- v0 u) (- v1 u) (- v2 u).

Definition vadd (u v : vector) : vector :=
  Vec (v0 u + v0 v) (v1 u + v1 v) (v2 u + v2 v).

Definition vscale (a : R) (u : vector) : vector :=
  Vec (a * v0 u) (a * v1 u) (a * v2 u).

Definition orthonormal (h n : vector) : Prop :=
  norm h = 1 /\ norm n = 1 /\ dot h n = 0.

(** ** The drawing surface

    The 2D context of the canvas is an external object.  It is modelled by
    the sequence of property assignments and method calls issued on it, in
    program order. *)

Inductive command : Type :=
  | Save
  | Restore
  | SetLineCap (s : string)
  | SetLineJoin (s : string)
  | SetLineWidth (w : R)
  | SetStrokeStyle (s : string)
  | SetFillStyle (s : string)
  | BeginPath
  | MoveTo (a b : R)
  | LineTo (a b : R)
  | ClosePath
  | Stroke
  | Fill
  | ResetCanvas
  | FillCanvas.

(** A reading of a command sequence: what ends up painted.  The surface keeps
    the current styles, a stack of saved styles, and the current path. *)
Record style : Type := Style {
  lineWidth : R;
  lineCap : string;
  lineJoin : string;
  strokeStyle : string;
  fillStyle : string
}.

Inductive paint : Type :=
  | Stroked (path : list (R * R)) (closed : bool) (colour : string) (width : R)
  | Filled (path : list (R * R)) (colour : string)
  | Cleared
  | Flooded (colour : string).

Record surface : Type := Surface {
  cur : style;
  saved : list style;
  path : list (R * R);
  closed : bool;
  painted : list paint
}.

Definition setStyle (f : style -> style) (s : surface) : surface :=
  Surface (f (cur s)) (saved s) (path s) (closed s) (painted s).

Definition addPaint (p : paint) (s : surface) : surface :=
  Surface (cur s) (saved s) (path s) (closed s) (painted s ++ [p]).

Definition defaultStyle : style :=
  Style 1 "butt" "miter" "#000000" "#000000".

Definition exec (s : surface) (k : command) : surface :=
  match k with
  | Save => Surface (cur s) (cur s :: saved s) (path s) (closed s) (painted s)
  | Restore =>
      match saved s with
      | [] => s
      | st :: rest => Surface st rest (path s) (closed s) (painted s)
      end
  | SetLineCap v =>
      setStyle (fun st => Style (lineWidth st) v (lineJoin st) (strokeStyle st) (fillStyle st)) s
  | SetLineJoin v =>
      setStyle (fun st => Style (lineWidth st) (lineCap st) v (strokeStyle st) (fillStyle st)) s
  | SetLineWidth w =>
      setStyle (fun st => Style w (lineCap st) (lineJoin st) (strokeStyle st) (fillStyle st)) s
  | SetStrokeStyle v =>
      setStyle (fun st => Style (lineWidth st) (lineCap st) (lineJoin st) v (fillStyle st)) s
  | SetFillStyle v =>
      setStyle (fun st => Style (lineWidth st) (lineCap st) (lineJoin st) (strokeStyle st) v) s
  | BeginPath => Surface (cur s) (saved s) [] false (painted s)
  | MoveTo a b => Surface (cur s) (saved s) (path s ++ [(a, b)]) (closed s) (painted s)
  | LineTo a b => Surface (cur s) (saved s) (path s ++ [(a, b)]) (closed s) (painted s)
  | ClosePath => Surface (cur s) (saved s) (path s) true (painted s)
  | Stroke =>
      addPaint (Stroked (path s) (closed s) (strokeStyle (cur s)) (lineWidth (cur s))) s
  | Fill => addPaint (Filled (path s) (fillStyle (cur s))) s
  | ResetCanvas => Surface defaultStyle [] [] false (painted s ++ [Cleared])
  | FillCanvas => addPaint (Flooded (fillStyle (cur s))) s
  end.

Definition run (s : surface) (ks : list command) : surface :=
  fold_left exec ks s.

(** What a command sequence paints, started on surface [s]. *)
Definition paints (s : surface) (ks : list command) : list paint :=
  painted (run (Surface (cur s) (saved s) (path s) (closed s) []) ks).

(** ** Turtle objects *)

(** The 2D context a turtle draws on: the size of its canvas and the
    commands issued on it so far. *)
Record context2d : Type := Context {
  canvas_width : R;
  canvas_height : R;
  issued : list command
}.

Definition issue (ks : list command) (cx : context2d) : context2d :=
  Context (canvas_width cx) (canvas_height cx) (issued cx ++ ks).

(** The log is a text to which every method appends one line.  A line is
    kept as the call it spells out; the printing of numbers is not
    modelled. *)
Inductive logLine : Type :=
  | LogHome
  | LogClean (arg : option string)
  | LogPenActive (b : bool)
  | LogPenDown
  | LogPenUp
  | LogSetPenWidth (w : R)
  | LogSetPenStyle (c : string)
  | LogMove (d : R)
  | LogTurn (phi : R)
  | LogRoll (psi : R)
  | LogDive (theta : R)
  | LogDrawTurtle (c : string).

Record turtle : Type := Turtle_ {
  log : list logLine;
  logging : bool;
  unit : R;
  canvasID : string;
  context : context2d;
  home : vector;
  position : vector;
  heading : vector;
  normal : vector;
  pen : bool;
  penStyle : string;
  penWidth : R
}.

(** Assignments to single properties of [this]. *)
Definition logLine_ (l : logLine) (t : turtle) : turtle :=
  if logging t then
    Turtle_ (log t ++ [l]) (logging t) (unit t) (canvasID t) (context t) (home t)
      (position t) (heading t) (normal t) (pen t) (penStyle t) (penWidth t)
  else t.

Definition set_logging (b : bool) (t : turtle) : turtle :=
  Turtle_ (log t) b (unit t) (canvasID t) (context t) (home t)
    (position t) (heading t) (normal t) (pen t) (penStyle t) (penWidth t).

Definition set_context (cx : context2d) (t : turtle) : turtle :=
  Turtle_ (log t) (logging t) (unit t) (canvasID t) cx (home t)
    (position t) (heading t) (normal t) (pen t) (penStyle t) (penWidth t).

Definition set_position (p : vector) (t : turtle) : turtle :=
  Turtle_ (log t) (logging t) (unit t) (canvasID t) (context t) (home t)
    p (heading t) (normal t) (pen t) (penStyle t) (penWidth t).

Definition set_heading (h : vector) (t : turtle) : turtle :=
  Turtle_ (log t) (logging t) (unit t) (canvasID t) (context t) (home t)
    (position t) h (normal t) (pen t) (penStyle t) (penWidth t).

Definition set_normal (n : vector) (t : turtle) : turtle :=
  Turtle_ (log t) (logging t) (unit t) (canvasID t) (context t) (home t)
    (position t) (heading t) n (pen t) (penStyle t) (penWidth t).

Definition set_pen (b : bool) (t : turtle) : turtle :=
  Turtle_ (log t) (logging t) (unit t) (canvasID t) (context t) (home t)
    (position t) (heading t) (normal t) b (penStyle t) (penWidth t).

Definition set_penStyle (c : string) (t : turtle) : turtle :=
  Turtle_ (log t) (logging t) (unit t) (canvasID t) (context t) (home t)
    (position t) (heading t) (normal t) (pen t) c (penWidth t).

Definition set_penWidth (w : R) (t : turtle) : turtle :=
  Turtle_ (log t) (logging t) (unit t) (canvasID t) (context t) (home t)
    (position t) (heading t) (normal t) (pen t) (penStyle t) w.

Definition draw (ks : list command) (t : turtle) : turtle :=
  set_context (issue ks (context t)) t.

(** [Home]: put turtle in initial state. *)
Definition Home (t : turtle) : turtle :=
  let t := logLine_ LogHome t in
  let t := set_position (home t) t in
  let t := set_heading (Vec 0 1 0) t in
  set_normal (Vec 0 0 1) t.

(** *** Construction *)

Record defaultsT : Type := Defaults { d_canvasID : string; d_unit : R }.

Definition initialDefaults : defaultsT := Defaults "TGspace" 30.

Record optionsT : Type := Options {
  o_origin : option string;
  o_unit : option R;
  o_canvasID : option string
}.

Definition noOptions : optionsT := Options None None None.

(** [document.getElementById(id).getContext('2d')]; no element, no turtle. *)
Definition document : Type := string -> option context2d.

(** The body of the loop over [options.origin], one character at a time. *)
Definition originChar (cx : context2d) (ch : Ascii.ascii) (xy : R * R) : R * R :=
  let (x0, y0) := xy in
  if Ascii.eqb ch "t"%char then (0, y0)
  else if Ascii.eqb ch "m"%char then (canvas_height cx / 2, y0)
  else if Ascii.eqb ch "b"%char then (canvas_height cx, y0)
  else if Ascii.eqb ch "l"%char then (x0, 0)
  else if Ascii.eqb ch "c"%char then (x0, canvas_width cx / 2)
  else if Ascii.eqb ch "r"%char then (x0, canvas_width cx)
  else (x0, y0).

Fixpoint originLoop (cx : context2d) (s : string) (xy : R * R) : R * R :=
  match s with
  | EmptyString => xy
  | String ch rest => originLoop cx rest (originChar cx ch xy)
  end.

(** [Init]: [dflt] is the top of the defaults stack. *)
Definition Init (doc : document) (dflt : defaultsT) (options : optionsT)
    (t : turtle) : option turtle :=
  let unit' :=
    match o_unit options with
    | Some u => if Req_dec_T u 0 then d_unit dflt else u
    | None => d_unit dflt
    end in
  let canvasID' :=
    match o_canvasID options with
    | Some EmptyString | None => d_canvasID dflt
    | Some s => s
    end in
  match doc canvasID' with
  | None => None
  | Some cx =>
      let xy := (canvas_height cx / 2, canvas_width cx / 2) in
      let xy :=
        match o_origin options with
        | Some s => originLoop cx s xy
        | None => xy
        end in
      let t := Turtle_ (log t) (logging t) unit' canvasID' cx
                 (Vec (fst xy) (snd xy) 0) (position t) (heading t) (normal t)
                 true "black" 2 in
      Some (set_logging true (Home t))
  end.

(** The constructor; the properties that [Init] defines are absent until
    then, their value here is immaterial. *)
Definition Turtle (doc : document) (dflt : defaultsT) (options : optionsT)
    : option turtle :=
  Init doc dflt options
    (Turtle_ [] false 0 "" (Context 0 0 []) (Vec 0 0 0) (Vec 0 0 0)
       (Vec 0 0 0) (Vec 0 0 0) false "" 0).

(** *** Public methods *)

(** [Clear(sp)], with the optional colour; [FillCanvas] is the
    [fillRect] over the whole canvas. *)
Definition Clear (colour : option string) (cx : context2d) : context2d :=
  issue (ResetCanvas ::
         match colour with
         | Some c => [SetFillStyle c; FillCanvas]
         | None => []
         end) cx.

Definition Clean (colour : option string) (t : turtle) : turtle :=
  let t := logLine_ (LogClean colour) t in
  set_context (Clear colour (context t)) t.

Definition PenActive (b : bool) (t : turtle) : turtle :=
  set_pen b (logLine_ (LogPenActive b) t).

Definition PenDown (t : turtle) : turtle :=
  set_pen true (logLine_ LogPenDown t).

Definition PenUp (t : turtle) : turtle :=
  set_pen false (logLine_ LogPenUp t).

Definition SetPenWidth (w : R) (t : turtle) : turtle :=
  set_penWidth w (logLine_ (LogSetPenWidth w) t).

Definition SetPenStyle (c : string) (t : turtle) : turtle :=
  set_penStyle c (logLine_ (LogSetPenStyle c) t).

(** The commands of [Move] when the pen is active. *)
Definition moveStroke (t : turtle) (newposition : vector) : list command :=
  [ Save;
    SetLineCap "round";
    SetLineJoin "round";
    SetLineWidth (penWidth t);
    SetStrokeStyle (penStyle t);
    BeginPath;
    MoveTo (idx (position t) y) (idx (position t) x);
    LineTo (idx newposition y) (idx newposition x);
    Stroke;
    Restore ].

Definition Move (d : R) (t : turtle) : turtle :=
  let t := logLine_ (LogMove d) t in
  let newposition := linear 1 (position t) (d * unit t) (heading t) in
  let t := if pen t then draw (moveStroke t newposition) t else t in
  set_position newposition t.

Definition Turn (phi : R) (t : turtle) : turtle :=
  let t := logLine_ (LogTurn phi) t in
  let alpha := phi * Degree in
  let left := cross (normal t) (heading t) in
  let newheading := rotateNormal (heading t) left (normal t) alpha in
  set_heading newheading t.

Definition Roll (psi : R) (t : turtle) : turtle :=
  let t := logLine_ (LogRoll psi) t in
  let alpha := psi * Degree in
  let right := cross (heading t) (normal t) in
  let newnormal := rotateNormal (normal t) right (heading t) alpha in
  set_normal newnormal t.

Definition Dive (theta : R) (t : turtle) : turtle :=
  let t := logLine_ (LogDive theta) t in
  let alpha := theta * Degree in
  let left := cross (normal t) (heading t) in
  let newnormal := rotateNormal (normal t) (heading t) left alpha in
  let t := set_normal newnormal t in
  set_heading (cross left (normal t)) t.

Definition Segment (d psi phi : R) (t : turtle) : turtle :=
  Turn phi (Roll psi (Move d t)).

(** *** Drawing the turtle: a triangle with fin tail *)

Section Glyph.

Variable t : turtle.
Variable c : string.

Definition left : vector := cross (normal t) (heading t).
(** half nose angle *)
Definition alpha : R := 30 * Degree.
Definition ca : R := cos alpha.
Definition sa : R := sin alpha.
(** hypothenuse *)
Definition h : R := unit t.
(** distance from center to tip of nose *)
Definition a : R := 2 / 3 * h * ca.

Definition nose : vector := linear 1 (position t) a (heading t).
Definition back : vector := linear 1 nose (- h * ca) (heading t).
Definition port : vector := linear 1 back (h * sa) left.
Definition star : vector := linear 1 back (- h * sa) left.
Definition fin : vector := linear 1 back (h * sa) (normal t).

(** Where the eye on the wing with tip [tip] is put. *)
Definition eye (tip : vector) : R * R :=
  (idx (position t) y + a / 2 * idx (heading t) y + (idx tip y - idx back y) / 7,
   idx (position t) x + a / 2 * idx (heading t) x + (idx tip x - idx back x) / 7).

(** Where the cross hair towards the wing with tip [tip] ends. *)
Definition hair (tip : vector) : R * R :=
  (idx (position t) y + (idx tip y - idx nose y) / 5,
   idx (position t) x + (idx tip x - idx nose x) / 5).

Definition wingDecorations : list command :=
  if Rge_dec (idx (normal t) z) 0 then
    (* eyes on top *)
    [ Save;
      SetLineWidth 2;
      BeginPath;
      MoveTo (fst (eye star)) (snd (eye star));
      LineTo (fst (eye star)) (snd (eye star));
      SetStrokeStyle "white";
      Stroke;
      BeginPath;
      MoveTo (fst (eye port)) (snd (eye port));
      LineTo (fst (eye port)) (snd (eye port));
      SetStrokeStyle c;
      Stroke;
      Restore ]
  else
    (* arrow head on the bottom: fin is down, draw cross hair *)
    [ BeginPath;
      MoveTo (idx (position t) y) (idx (position t) x);
      LineTo (fst (hair port)) (snd (hair port));
      SetStrokeStyle c;
      Stroke;
      BeginPath;
      MoveTo (idx (position t) y) (idx (position t) x);
      LineTo (fst (hair star)) (snd (hair star));
      SetStrokeStyle "white";
      Stroke ].

Definition drawWings : list command :=
  (* starboard wing *)
  [ BeginPath;
    MoveTo (idx nose y) (idx nose x);
    LineTo (idx back y) (idx back x);
    LineTo (idx star y) (idx star x);
    ClosePath;
    SetFillStyle c;
    Fill;
    (* port wing *)
    BeginPath;
    MoveTo (idx nose y) (idx nose x);
    LineTo (idx back y) (idx back x);
    LineTo (idx port y) (idx port x);
    ClosePath;
    SetFillStyle "white";
    Fill ]
  ++ wingDecorations ++
  (* starboard wing's edge *)
  [ BeginPath;
    MoveTo (idx nose y) (idx nose x);
    LineTo (idx star y) (idx star x);
    LineTo (idx back y) (idx back x);
    SetStrokeStyle "white";
    Stroke;
    (* port wing's edge *)
    BeginPath;
    MoveTo (idx nose y) (idx nose x);
    LineTo (idx port y) (idx port x);
    LineTo (idx back y) (idx back x);
    SetStrokeStyle c;
    Stroke ].

Definition drawFinFace (fc : string) : list command :=
  [ BeginPath;
    MoveTo (idx (position t) y) (idx (position t) x);
    LineTo (idx fin y) (idx fin x);
    LineTo (idx back y) (idx back x);
    ClosePath;
    SetFillStyle fc;
    Fill ].

Definition drawFinEdge (fc : string) : list command :=
  [ BeginPath;
    MoveTo (idx (position t) y) (idx (position t) x);
    LineTo (idx fin y) (idx fin x);
    LineTo (idx back y) (idx back x);
    ClosePath;
    SetStrokeStyle fc;
    Stroke ].

Definition drawFin : list command :=
  if Rge_dec (idx left z) 0 then
    drawFinFace "white" ++ drawFinEdge c
  else
    drawFinEdge "white" ++ drawFinFace c.

Definition drawGlyph : list command :=
  [ Save; SetLineWidth 1; SetLineCap "round"; SetLineJoin "round" ]
  ++ (if Rge_dec (idx (normal t) z) 0 then
        (* fin is up, draw it last *)
        drawWings ++ drawFin
      else
        (* fin is down, draw it first *)
        drawFin ++ drawWings)
  ++ [ Restore ].

End Glyph.

(** [DrawTurtle(c)]: right wing filled with c.  The nested functions read
    the turtle through the variable [turtle], set to [this] on entry. *)
Definition DrawTurtle (c : string) (t : turtle) : turtle :=
  let t := logLine_ (LogDrawTurtle c) t in
  draw (drawGlyph t c) t.

(** *** Programs: sequences of method calls *)

Inductive call : Type :=
  | CHome
  | CClean (colour : option string)
  | CPenActive (b : bool)
  | CPenDown
  | CPenUp
  | CSetPenWidth (w : R)
  | CSetPenStyle (c : string)
  | CMove (d : R)
  | CTurn (phi : R)
  | CRoll (psi : R)
  | CDive (theta : R)
  | CSegment (d psi phi : R)
  | CDrawTurtle (c : string).

Definition perform (t : turtle) (k : call) : turtle :=
  match k with
  | CHome => Home t
  | CClean colour => Clean colour t
  | CPenActive b => PenActive b t
  | CPenDown => PenDown t
  | CPenUp => PenUp t
  | CSetPenWidth w => SetPenWidth w t
  | CSetPenStyle c => SetPenStyle c t
  | CMove d => Move d t
  | CTurn phi => Turn phi t
  | CRoll psi => Roll psi t
  | CDive theta => Dive theta t
  | CSegment d psi phi => Segment d psi phi t
  | CDrawTurtle c => DrawTurtle c t
  end.

Definition performAll (t : turtle) (ks : list call) : turtle :=
  fold_left perform ks t.

(** Calls that only rotate the frame. *)
Definition rotation (k : call) : Prop :=
  match k with
  | CTurn _ | CRoll _ | CDive _ => True
  | _ => False
  end.

(** ** Notions used in the statements *)

(** Orthonormality without square roots. *)
Definition unitFrame (hd n : vector) : Prop :=
  dot hd hd = 1 /\ dot n n = 1 /\ dot hd n = 0.

(** A turtle to try things on: the one constructed with the default
    options on a 400 by 300 canvas. *)
Definition sampleDocument : document :=
  fun id => if String.eqb id "TGspace" then Some (Context 400 300 []) else None.

Definition sample : turtle :=
  Turtle_ [] true 30 "TGspace" (Context 400 300 []) (Vec (300 / 2) (400 / 2) 0)
    (Vec (300 / 2) (400 / 2) 0) (Vec 0 1 0) (Vec 0 0 1) true "black" 2.

(** Two states that differ in the log at most. *)
Definition sameButLog (t1 t2 : turtle) : Prop :=
  logging t1 = logging t2 /\ unit t1 = unit t2 /\ canvasID t1 = canvasID t2
  /\ context t1 = context t2 /\ home t1 = home t2
  /\ position t1 = position t2 /\ heading t1 = heading t2
  /\ normal t1 = normal t2 /\ pen t1 = pen t2
  /\ penStyle t1 = penStyle t2 /\ penWidth t1 = penWidth t2.

(** The projection on the canvas: turtle position [a, b, c] is at canvas
    position (b, a). *)
Definition project (p : vector) : R * R := (idx p y, idx p x).

Inductive side : Type := Starboard | Portside.

Definition tip (t : turtle) (sd : side) : vector :=
  match sd with
  | Starboard => star t
  | Portside => port t
  end.

(** The eye on a wing: a dot of width 2. *)
Definition eyeStroke (t : turtle) (sd : side) (colour : string) : paint :=
  Stroked [eye t (tip t sd); eye t (tip t sd)] false colour 2.

(** The cross hair over a wing: a line from the position. *)
Definition hairStroke (t : turtle) (sd : side) (colour : string) : paint :=
  Stroked [project (position t); hair t (tip t sd)] false colour 1.

Definition wingFills (t : turtle) (c : string) : list paint :=
  [ Filled [project (nose t); project (back t); project (star t)] c;
    Filled [project (nose t); project (back t); project (port t)] "white" ].

Definition wingEdges (t : turtle) (c : string) : list paint :=
  [ Stroked [project (nose t); project (star t); project (back t)] false "white" 1;
    Stroked [project (nose t); project (port t); project (back t)] false c 1 ].

Definition finTriangle (t : turtle) : list (R * R) :=
  [project (position t); project (fin t); project (back t)].

Definition finFace (t : turtle) (colour : string) : paint :=
  Filled (finTriangle t) colour.

Definition finEdge (t : turtle) (colour : string) : paint :=
  Stroked (finTriangle t) true colour 1.

Definition decorationPaint (t : turtle) (c : string) : list paint :=
  if Rge_dec (idx (normal t) z) 0 then
    [eyeStroke t Starboard "white"; eyeStroke t Portside c]
  else
    [hairStroke t Portside c; hairStroke t Starboard "white"].

Definition wingsPaint (t : turtle) (c : string) : list paint :=
  wingFills t c ++ decorationPaint t c ++ wingEdges t c.

Definition finPaint (t : turtle) (c : string) : list paint :=
  if Rge_dec (idx (left t) z) 0 then
    [finFace t "white"; finEdge t c]
  else
    [finEdge t "white"; finFace t c].

(** Turtles with the fin down and with the fin sideways: the sample turtle
    after Roll(180) and after Roll(-90). *)
Definition sampleDown : turtle :=
  Turtle_ [LogRoll 180] true 30 "TGspace" (Context 400 300 [])
    (Vec (300 / 2) (400 / 2) 0)
    (Vec (300 / 2) (400 / 2) 0) (Vec 0 1 0) (Vec 0 0 (-1)) true "black" 2.

Definition sampleRolled : turtle :=
  Turtle_ [LogRoll (-90)] true 30 "TGspace" (Context 400 300 [])
    (Vec (300 / 2) (400 / 2) 0)
    (Vec (300 / 2) (400 / 2) 0) (Vec 0 1 0) (Vec (-1) 0 0) true "black" 2.

(** The surface of a fresh canvas. *)
Definition blank : surface := Surface defaultStyle [] [] false [].

(** ** Further notions used in the statements *)

(** Distance between two points. *)
Definition dist (u v : vector) : R := norm (linear 1 u (-1) v).

(** Calls that cannot put ink on the canvas while the pen is up: all but
    the ones that lower the pen, draw the turtle or clean the canvas. *)
Definition quiet (k : call) : Prop :=
  match k with
  | CPenDown | CDrawTurtle _ | CClean _ => False
  | CPenActive b => b = false
  | _ => True
  end.

(** One side of a square: Segment(d, 0, 90). *)
Definition squareSide (d : R) (t : turtle) : turtle := Segment d 0 90 t.

(** The commands a call issues on the canvas, and those of a sequence of
    calls. *)
Definition emitted (t : turtle) (k : call) : list command :=
  match k with
  | CMove d | CSegment d _ _ =>
      if pen t then moveStroke t (position (Move d t)) else []
  | CDrawTurtle c => drawGlyph t c
  | CClean colour =>
      ResetCanvas ::
      match colour with
      | Some c => [SetFillStyle c; FillCanvas]
      | None => []
      end
  | _ => []
  end.

Fixpoint trace (t : turtle) (ks : list call) : list command :=
  match ks with
  | [] => []
  | k :: ks => emitted t k ++ trace (perform t k) ks
  end.

(** A surface with nothing painted yet. *)
Definition strip (s : surface) : surface :=
  Surface (cur s) (saved s) (path s) (closed s) [].

Definition notClean (k : call) : Prop :=
  match k with
  | CClean _ => False
  | _ => True
  end.

(** Calls that leave the pen down and the turtle on its trail: moves,
    rotations, and changes of the pen's looks. *)
Definition trailing (k : call) : Prop :=
  match k with
  | CMove _ | CTurn _ | CRoll _ | CDive _ | CSegment _ _ _
  | CSetPenWidth _ | CSetPenStyle _ | CPenDown => True
  | CPenActive b => b = true
  | _ => False
  end.

(** Strokes that follow one another from [a] to [b], each a single line
    that starts where the one before it ends. *)
Inductive chain : R * R -> list paint -> R * R -> Prop :=
  | chain_nil (a : R * R) : chain a [] a
  | chain_cons (a b c : R * R) (colour : string) (width : R) (rest : list paint) :
      chain b rest c ->
      chain a (Stroked [a; b] false colour width :: rest) c.

(** The lines a call writes when logging: Segment writes none of its
    own, its three parts write theirs. *)
Definition linesOf (k : call) : list logLine :=
  match k with
  | CHome => [LogHome]
  | CClean arg => [LogClean arg]
  | CPenActive b => [LogPenActive b]
  | CPenDown => [LogPenDown]
  | CPenUp => [LogPenUp]
  | CSetPenWidth w => [LogSetPenWidth w]
  | CSetPenStyle c => [LogSetPenStyle c]
  | CMove d => [LogMove d]
  | CTurn phi => [LogTurn phi]
  | CRoll psi => [LogRoll psi]
  | CDive theta => [LogDive theta]
  | CSegment d psi phi => [LogMove d; LogRoll psi; LogTurn phi]
  | CDrawTurtle c => [LogDrawTurtle c]
  end.

(** The six letters of [options.origin]. *)
Definition originLetter (ch : ascii) : bool :=
  (Ascii.eqb ch "t" || Ascii.eqb ch "m" || Ascii.eqb ch "b"
   || Ascii.eqb ch "l" || Ascii.eqb ch "c" || Ascii.eqb ch "r")%bool.

(** ** The stack of defaults

    [defaults] is an array of objects, used as a stack with its top at the
    end.  The objects are mutated in place by [SetDefaults], so they live in a
    store and the stack holds their addresses.  The values of properties are
    numbers and strings. *)

Inductive value : Type :=
  | VNum (r : R)
  | VStr (s : string).

(** An object: its properties in the order they were added. *)
Definition object : Type := list (string * value).

Fixpoint getProp (p : string) (o : object) : option value :=
  match o with
  | [] => None
  | (q, v) :: rest => if String.eqb p q then Some v else getProp p rest
  end.

(** [o[p] = v] *)
Fixpoint setProp (p : string) (v : value) (o : object) : object :=
  match o with
  | [] => [(p, v)]
  | (q, w) :: rest =>
      if String.eqb p q then (q, v) :: rest else (q, w) :: setProp p v rest
  end.

Record store : Type := Store {
  objects : list object;
  defaults : list nat
}.

Definition initialStore : store :=
  Store [[("canvasID"%string, VStr "TGspace"); ("unit"%string, VNum 30)]] [0%nat].

(** The object at an address. *)
Definition deref (st : store) (addr : nat) : object :=
  nth addr (objects st) [].

Fixpoint update (addr : nat) (f : object -> object) (os : list object)
    : list object :=
  match os, addr with
  | [], _ => []
  | o :: rest, O => f o :: rest
  | o :: rest, S addr' => o :: update addr' f rest
  end.

(** [top(a)]: what is on top of stack a, [a[a.length - 1]]; undefined on the
    empty array. *)
Definition top (a : list nat) : option nat :=
  nth_error a (List.length a - 1).

(** [new cloneObject(source)]: a fresh object with the properties of
    source. *)
Definition cloneObject (source : object) : object :=
  fold_left (fun this iv => setProp (fst iv) (snd iv) this) source [].

(** [SetDefaults(def)]: a property of the undefined top of an empty stack
    cannot be set. *)
Fixpoint SetDefaults (def : object) (st : store) : option store :=
  match def with
  | [] => Some st
  | (p, v) :: rest =>
      match top (defaults st) with
      | None => None
      | Some addr =>
          SetDefaults rest
            (Store (update addr (setProp p v) (objects st)) (defaults st))
      end
  end.

(** [GetDefaults()] *)
Definition GetDefaults (st : store) : option object :=
  match top (defaults st) with
  | None => None
  | Some addr => Some (deref st addr)
  end.

(** [PushDefaults(def)]: first copy top, then update with the values of
    def. *)
Definition PushDefaults (def : object) (st : store) : option store :=
  let source :=
    match top (defaults st) with
    | Some addr => deref st addr
    | None => []
    end in
  SetDefaults def
    (Store (objects st ++ [cloneObject source])
           (defaults st ++ [List.length (objects st)])).

(** [PopDefaults()] *)
Definition PopDefaults (st : store) : store :=
  if (1 <? List.length (defaults st))%nat
  then Store (objects st) (removelast (defaults st))
  else st.

(** Sequences of operations on the defaults. *)
Inductive defaultsCall : Type :=
  | DSet (def : object)
  | DPush (def : object)
  | DPop.

Definition performD (st : store) (k : defaultsCall) : option store :=
  match k with
  | DSet def => SetDefaults def st
  | DPush def => PushDefaults def st
  | DPop => Some (PopDefaults st)
  end.

Fixpoint performAllD (st : store) (ks : list defaultsCall) : option store :=
  match ks with
  | [] => Some st
  | k :: rest =>
      match performD st k with
      | None => None
      | Some st' => performAllD st' rest
      end
  end.

(** Stores as the operations make them: a stack that is not empty, of
    distinct addresses of objects in the store, whose property names are
    distinct. *)
Definition wellFormed (st : store) : Prop :=
  defaults st <> []
  /\ NoDup (defaults st)
  /\ Forall (fun addr => (addr < List.length (objects st))%nat) (defaults st)
  /\ Forall (fun o : object => NoDup (map fst o)) (objects st).

(** What [Init] reads off the top of the stack. *)
Definition topDefaults (st : store) : option defaultsT :=
  match GetDefaults st with
  | Some o =>
      match getProp "canvasID" o, getProp "unit" o with
      | Some (VStr id), Some (VNum u) => Some (Defaults id u)
      | _, _ => None
      end
  | None => None
  end.

(** All the assignments [o[p] = def[p]] of a loop over def. *)
Definition assignAll (def : object) (o : object) : object :=
  fold_left (fun this iv => setProp (fst iv) (snd iv) this) def o.

(** [new Turtle(options)] with the defaults of the store; defined when the
    top defaults hold a string for the canvas id and a number for the
    unit. *)
Definition TurtleIn (st : store) (doc : document) (options : optionsT)
    : option turtle :=
  match topDefaults st with
  | Some dflt => Turtle doc dflt options
  | None => None
  end.

(** A paint operation in a given colour. *)
Definition inked (colour : string) (p : paint) : Prop :=
  match p with
  | Stroked _ _ c' _ | Filled _ c' | Flooded c' => c' = colour
  | Cleared => False
  end.

(** ** The rotations in double arithmetic

    The vector functions and the frame part of Turn, Roll and Dive, computed
    as the source computes them: in IEEE binary64, every product, sum and
    difference rounded to nearest.  [Math.cos] and [Math.sin] are parameters:
    their results are those of the JavaScript engine. *)

Module Double.

Import PrimFloat.
Local Open Scope float_scope.

(** [Math.PI] *)
Definition PI : float := 0x1.921fb54442d18p+1.

Definition Degree : float := PI / 180.

Record vector : Type := Vec { v0 : float; v1 : float; v2 : float }.

Definition idx (u : vector) (c : nat) : float :=
  match c with
  | O => v0 u
  | S O => v1 u
  | _ => v2 u
  end.

Definition forXZ (body : nat -> float) : vector :=
  Vec (body x) (body y) (body z).

Definition linear (a : float) (u : vector) (b : float) (v : vector) : vector :=
  forXZ (fun c => a * idx u c + b * idx v c).

Definition cross (u v : vector) : vector :=
  forXZ (fun c =>
    idx u ((c+1) mod 3) * idx v ((c+2) mod 3)
    - idx u ((c+2) mod 3) * idx v ((c+1) mod 3)).

(** The properties of a turtle that the rotations read and write. *)
Record frame : Type := Frame { heading : vector; normal : vector }.

(** The frame that Home sets. *)
Definition canonical : frame := Frame (Vec 0 1 0) (Vec 0 0 1).

Section Rotations.

Variable Math_cos : float -> float.
Variable Math_sin : float -> float.

Definition rotateNormal (u v w : vector) (alpha : float) : vector :=
  linear (Math_cos alpha) u (Math_sin alpha) v.

Definition Turn (phi : float) (f : frame) : frame :=
  let alpha := phi * Degree in
  let left := cross (normal f) (heading f) in
  let newheading := rotateNormal (heading f) left (normal f) alpha in
  Frame newheading (normal f).

Definition Roll (psi : float) (f : frame) : frame :=
  let alpha := psi * Degree in
  let right := cross (heading f) (normal f) in
  let newnormal := rotateNormal (normal f) right (heading f) alpha in
  Frame (heading f) newnormal.

Definition Dive (theta : float) (f : frame) : frame :=
  let alpha := theta * Degree in
  let left := cross (normal f) (heading f) in
  let newnormal := rotateNormal (normal f) (heading f) left alpha in
  Frame (cross left newnormal) newnormal.

End Rotations.

Definition dot (u v : vector) : float :=
  v0 u * v0 v + v1 u * v1 v + v2 u * v2 v.

Definition norm (u : vector) : float := sqrt (dot u u).

(** [r] is 1 within the tolerance; false for NaN. *)
Definition within (tolerance r : float) : bool :=
  abs (r - 1) <=? tolerance.

(** The double nearest to the cosine of 30 degrees, 0x1.bb67ae8584cabp-1,
    with its two neighbours, and likewise for the sine, nearest
    0x1.fffffffffffffp-2: what [Math.cos] and [Math.sin] may give at
    [30 * Degree], to the last bit. *)
Definition cos30s : list float :=
  [0x1.bb67ae8584caap-1; 0x1.bb67ae8584cabp-1; 0x1.bb67ae8584cacp-1].

Definition sin30s : list float :=
  [0x1.ffffffffffffep-2; 0x1.fffffffffffffp-2; 0x1p-1].

End Double.

(** * Properties *)

(** ** Vector algebra *)

Lemma vector_eq (u v : vector) :
  v0 u = v0 v -> v1 u = v1 v -> v2 u = v2 v -> u = v.
Proof. destruct u, v; simpl; intros; subst; reflexivity. Qed.

Ltac vec_ring :=
  apply vector_eq; unfold linear, cross, forXZ, dot, x, y, z; simpl; ring.

Ltac dot_ring :=
  unfold linear, cross, forXZ, dot, x, y, z; simpl; ring.

Lemma linear_components (a : R) (u : vector) (b : R) (v : vector) :
  linear a u b v = vadd (vscale a u) (vscale b v).
Proof. reflexivity. Qed.

Lemma cross_components (u v : vector) :
  cross u v =
  Vec (v1 u * v2 v - v2 u * v1 v)
      (v2 u * v0 v - v0 u * v2 v)
      (v0 u * v1 v - v1 u * v0 v).
Proof. reflexivity. Qed.

Lemma dot_sym (u v : vector) : dot u v = dot v u.
Proof. dot_ring. Qed.

Lemma dot_linear_l (a : R) (u : vector) (b : R) (v w : vector) :
  dot (linear a u b v) w = a * dot u w + b * dot v w.
Proof. dot_ring. Qed.

Lemma dot_linear_r (a : R) (u : vector) (b : R) (v w : vector) :
  dot w (linear a u b v) = a * dot w u + b * dot w v.
Proof. dot_ring. Qed.

Lemma dot_cross_l (u v : vector) : dot (cross u v) u = 0.
Proof. dot_ring. Qed.

Lemma dot_cross_r (u v : vector) : dot (cross u v) v = 0.
Proof. dot_ring. Qed.

Lemma dot_l_cross (u v : vector) : dot u (cross u v) = 0.
Proof. dot_ring. Qed.

Lemma dot_r_cross (u v : vector) : dot v (cross u v) = 0.
Proof. dot_ring. Qed.

(** Lagrange's identity. *)
Lemma dot_cross_cross (u v : vector) :
  dot (cross u v) (cross u v) = dot u u * dot v v - dot u v * dot u v.
Proof. dot_ring. Qed.

Lemma cross_cross_l (u v w : vector) :
  cross (cross u v) w = linear (dot u w) v (- dot v w) u.
Proof. vec_ring. Qed.

Lemma cross_cross_r (u v w : vector) :
  cross u (cross v w) = linear (dot u w) v (- dot u v) w.
Proof. vec_ring. Qed.

Lemma cross_linear_r (u : vector) (a : R) (v : vector) (b : R) (w : vector) :
  cross u (linear a v b w) = linear a (cross u v) b (cross u w).
Proof. vec_ring. Qed.

Lemma cross_anticomm (u v : vector) : cross u v = vopp (cross v u).
Proof. apply vector_eq; unfold vopp, cross, forXZ, x, y, z; simpl; ring. Qed.

Lemma norm_1_dot (u : vector) : norm u = 1 <-> dot u u = 1.
Proof.
  unfold norm; split; intros H.
  - assert (Hpos : 0 <= dot u u).
    { unfold dot. nra. }
    rewrite <- (sqrt_sqrt _ Hpos), H. ring.
  - rewrite H. apply sqrt_1.
Qed.

Lemma sin2_cos2_mult (al : R) : cos al * cos al + sin al * sin al = 1.
Proof. generalize (sin2_cos2 al); unfold Rsqr; lra. Qed.

(** ** What each method does to each property *)

Ltac by_logging t :=
  unfold Home, Clean, PenActive, PenDown, PenUp, SetPenWidth, SetPenStyle,
    Move, Turn, Roll, Dive, DrawTurtle, draw, logLine_;
  let E := fresh "E" in
  destruct (logging t) eqn:E; simpl; rewrite ?E; simpl;
  try reflexivity; try assumption;
  try (destruct (pen t); reflexivity).

Lemma heading_Turn (phi : R) (t : turtle) :
  heading (Turn phi t)
  = linear (cos (phi * Degree)) (heading t)
           (sin (phi * Degree)) (cross (normal t) (heading t)).
Proof. by_logging t. Qed.

Lemma normal_Turn (phi : R) (t : turtle) : normal (Turn phi t) = normal t.
Proof. by_logging t. Qed.

Lemma position_Turn (phi : R) (t : turtle) : position (Turn phi t) = position t.
Proof. by_logging t. Qed.

Lemma heading_Roll (psi : R) (t : turtle) : heading (Roll psi t) = heading t.
Proof. by_logging t. Qed.

Lemma normal_Roll (psi : R) (t : turtle) :
  normal (Roll psi t)
  = linear (cos (psi * Degree)) (normal t)
           (sin (psi * Degree)) (cross (heading t) (normal t)).
Proof. by_logging t. Qed.

Lemma position_Roll (psi : R) (t : turtle) : position (Roll psi t) = position t.
Proof. by_logging t. Qed.

Lemma normal_Dive (theta : R) (t : turtle) :
  normal (Dive theta t)
  = linear (cos (theta * Degree)) (normal t)
           (sin (theta * Degree)) (heading t).
Proof. by_logging t. Qed.

Lemma heading_Dive (theta : R) (t : turtle) :
  heading (Dive theta t)
  = cross (cross (normal t) (heading t)) (normal (Dive theta t)).
Proof. by_logging t. Qed.

Lemma position_Dive (theta : R) (t : turtle) : position (Dive theta t) = position t.
Proof. by_logging t. Qed.

Lemma position_Move (d : R) (t : turtle) :
  position (Move d t) = linear 1 (position t) (d * unit t) (heading t).
Proof. by_logging t. Qed.

Lemma heading_Move (d : R) (t : turtle) : heading (Move d t) = heading t.
Proof. by_logging t. Qed.

Lemma normal_Move (d : R) (t : turtle) : normal (Move d t) = normal t.
Proof. by_logging t. Qed.

Lemma unit_Move (d : R) (t : turtle) : unit (Move d t) = unit t.
Proof. by_logging t. Qed.

(** ** The frame stays orthonormal *)

Lemma unitFrame_orthonormal (hd n : vector) :
  unitFrame hd n <-> orthonormal hd n.
Proof.
  unfold unitFrame, orthonormal. rewrite !norm_1_dot. tauto.
Qed.

Lemma unitFrame_canonical : unitFrame (Vec 0 1 0) (Vec 0 0 1).
Proof. unfold unitFrame, dot; simpl. repeat split; ring. Qed.

(** Under orthonormality, [Dive] turns heading towards minus normal. *)
Lemma heading_Dive_unitFrame (theta : R) (t : turtle) :
  unitFrame (heading t) (normal t) ->
  heading (Dive theta t)
  = linear (cos (theta * Degree)) (heading t)
           (- sin (theta * Degree)) (normal t).
Proof.
  intros (Hh & Hn & Hhn).
  rewrite heading_Dive, normal_Dive, cross_linear_r, !cross_cross_l.
  rewrite Hn, Hh, (dot_sym (normal t) (heading t)), Hhn.
  vec_ring.
Qed.

Lemma unitFrame_Turn (phi : R) (t : turtle) :
  unitFrame (heading t) (normal t) ->
  unitFrame (heading (Turn phi t)) (normal (Turn phi t)).
Proof.
  intros (Hh & Hn & Hhn).
  assert (Hnh : dot (normal t) (heading t) = 0) by (rewrite dot_sym; exact Hhn).
  rewrite heading_Turn, normal_Turn. repeat split; trivial.
  - rewrite dot_linear_l, !dot_linear_r, dot_cross_cross.
    rewrite dot_cross_r, dot_r_cross, Hh, Hn, Hnh.
    generalize (sin2_cos2_mult (phi * Degree)). lra.
  - rewrite dot_linear_l, dot_cross_l, Hhn. ring.
Qed.

Lemma unitFrame_Roll (psi : R) (t : turtle) :
  unitFrame (heading t) (normal t) ->
  unitFrame (heading (Roll psi t)) (normal (Roll psi t)).
Proof.
  intros (Hh & Hn & Hhn).
  rewrite heading_Roll, normal_Roll. repeat split; trivial.
  - rewrite dot_linear_l, !dot_linear_r, dot_cross_cross.
    rewrite dot_cross_r, dot_r_cross, Hh, Hn, Hhn.
    generalize (sin2_cos2_mult (psi * Degree)). lra.
  - rewrite dot_linear_r, dot_l_cross, Hhn. ring.
Qed.

Lemma unitFrame_Dive (theta : R) (t : turtle) :
  unitFrame (heading t) (normal t) ->
  unitFrame (heading (Dive theta t)) (normal (Dive theta t)).
Proof.
  intros HF. rewrite (heading_Dive_unitFrame _ _ HF), normal_Dive.
  destruct HF as (Hh & Hn & Hhn).
  assert (Hnh : dot (normal t) (heading t) = 0) by (rewrite dot_sym; exact Hhn).
  repeat split;
    rewrite dot_linear_l, !dot_linear_r, ?Hh, ?Hn, ?Hhn, ?Hnh;
    generalize (sin2_cos2_mult (theta * Degree)); lra.
Qed.

Lemma unitFrame_rotation (k : call) (t : turtle) :
  rotation k ->
  unitFrame (heading t) (normal t) ->
  unitFrame (heading (perform t k)) (normal (perform t k)).
Proof.
  destruct k; simpl; try contradiction; intros _.
  - apply unitFrame_Turn.
  - apply unitFrame_Roll.
  - apply unitFrame_Dive.
Qed.

Lemma unitFrame_rotations (ks : list call) :
  Forall rotation ks ->
  forall t, unitFrame (heading t) (normal t) ->
  unitFrame (heading (performAll t ks)) (normal (performAll t ks)).
Proof.
  induction 1 as [|k ks Hk _ IH]; intros t Ht; simpl.
  - exact Ht.
  - apply IH, unitFrame_rotation; assumption.
Qed.

Lemma Forall_firstn_rotation (n : nat) (ks : list call) :
  Forall rotation ks -> Forall rotation (firstn n ks).
Proof.
  intros H. revert n. induction H as [|k ks Hk _ IH]; intros [|n]; simpl;
    constructor; auto.
Qed.

Lemma sample_constructed :
  Turtle sampleDocument initialDefaults noOptions = Some sample.
Proof. reflexivity. Qed.

(** Over exact real arithmetic only: starting from the canonical frame,
    heading = (0,1,0) and normal = (0,0,1), after each call of any finite
    sequence of Turn, Roll and Dive calls the frame is orthonormal.  The
    doubles of the source do not keep this, see [double_frame_drifts]. *)
Theorem frame_orthonormality (t : turtle) (ks : list call) (n : nat) :
  heading t = Vec 0 1 0 ->
  normal t = Vec 0 0 1 ->
  Forall rotation ks ->
  let t' := performAll t (firstn n ks) in
  norm (heading t') = 1 /\ norm (normal t') = 1 /\
  dot (heading t') (normal t') = 0.
Proof.
  intros Hh Hn Hks t'.
  apply (unitFrame_orthonormal (heading t') (normal t')).
  apply unitFrame_rotations.
  - apply Forall_firstn_rotation, Hks.
  - rewrite Hh, Hn. apply unitFrame_canonical.
Qed.

Lemma frame_orthonormality_witness :
  let t' := performAll sample (firstn 2 [CTurn 90; CDive 30; CRoll 45]) in
  norm (heading t') = 1 /\ norm (normal t') = 1 /\
  dot (heading t') (normal t') = 0.
Proof.
  apply (frame_orthonormality sample [CTurn 90; CDive 30; CRoll 45] 2).
  - reflexivity.
  - reflexivity.
  - repeat constructor.
Defined.

(** ** The cross product *)

(** C9.  [cross u v] is the standard cross product: component [c] is
    [u[(c+1) mod 3] * v[(c+2) mod 3] - u[(c+2) mod 3] * v[(c+1) mod 3]];
    it is anticommutative, and cross((0,0,1), (1,0,0)) = (0,1,0). *)
Theorem cross_standard (u v : vector) (c : nat) :
  (c < 3)%nat ->
  idx (cross u v) c
  = idx u ((c+1) mod 3) * idx v ((c+2) mod 3)
    - idx u ((c+2) mod 3) * idx v ((c+1) mod 3)
  /\ cross u v = Vec (v1 u * v2 v - v2 u * v1 v)
                     (v2 u * v0 v - v0 u * v2 v)
                     (v0 u * v1 v - v1 u * v0 v)
  /\ cross u v = vopp (cross v u)
  /\ cross (Vec 0 0 1) (Vec 1 0 0) = Vec 0 1 0.
Proof.
  intros Hc. repeat split.
  - destruct c as [|[|[|c]]]; try lia; reflexivity.
  - apply cross_anticomm.
  - apply vector_eq; unfold cross, forXZ, x, y, z; simpl; ring.
Qed.

Lemma cross_standard_witness :
  (1 < 3)%nat
  /\ idx (cross (Vec 1 2 3) (Vec 4 5 6)) 1
     = idx (Vec 1 2 3) ((1+1) mod 3) * idx (Vec 4 5 6) ((1+2) mod 3)
       - idx (Vec 1 2 3) ((1+2) mod 3) * idx (Vec 4 5 6) ((1+1) mod 3)
  /\ cross (Vec 1 2 3) (Vec 4 5 6)
     = Vec (v1 (Vec 1 2 3) * v2 (Vec 4 5 6) - v2 (Vec 1 2 3) * v1 (Vec 4 5 6))
           (v2 (Vec 1 2 3) * v0 (Vec 4 5 6) - v0 (Vec 1 2 3) * v2 (Vec 4 5 6))
           (v0 (Vec 1 2 3) * v1 (Vec 4 5 6) - v1 (Vec 1 2 3) * v0 (Vec 4 5 6))
  /\ cross (Vec 1 2 3) (Vec 4 5 6) = vopp (cross (Vec 4 5 6) (Vec 1 2 3))
  /\ cross (Vec 0 0 1) (Vec 1 0 0) = Vec 0 1 0.
Proof.
  split; [lia|].
  apply (cross_standard (Vec 1 2 3) (Vec 4 5 6) 1). lia.
Defined.

(** ** Dive *)

Lemma Degree_90 : 90 * Degree = PI / 2.
Proof. unfold Degree. field. Qed.

Lemma Degree_30 : 30 * Degree = PI / 6.
Proof. unfold Degree. field. Qed.

Lemma vector_neq_1 (u v : vector) : v1 u <> v1 v -> u <> v.
Proof. intros H E. apply H. rewrite E. reflexivity. Qed.

Lemma vector_neq_2 (u v : vector) : v2 u <> v2 v -> u <> v.
Proof. intros H E. apply H. rewrite E. reflexivity. Qed.

(** C4.  Dive(theta) takes left = cross(normal, heading) of the frame it
    starts from, sets normal to cos(theta_rad)*normal + sin(theta_rad)*heading
    and then heading to cross(left, new normal), with that same left; position
    is not changed.  On the sample turtle Dive(90) changes both heading and
    normal, and its heading differs from the one an axis recomputed from the
    new normal would give. *)
Theorem Dive_formula (t : turtle) (theta : R) :
  let left := cross (normal t) (heading t) in
  let newNormal :=
    linear (cos (theta * Degree)) (normal t) (sin (theta * Degree)) (heading t) in
  normal (Dive theta t) = newNormal
  /\ heading (Dive theta t) = cross left newNormal
  /\ position (Dive theta t) = position t
  /\ heading (Dive 90 sample) <> heading sample
  /\ normal (Dive 90 sample) <> normal sample
  /\ heading (Dive 90 sample)
     <> cross (cross (normal (Dive 90 sample)) (heading sample))
              (normal (Dive 90 sample)).
Proof.
  intros lft newNormal.
  split; [apply normal_Dive|].
  split; [rewrite heading_Dive, normal_Dive; reflexivity|].
  split; [apply position_Dive|].
  assert (Hn : normal (Dive 90 sample) = Vec 0 1 0).
  { rewrite normal_Dive, Degree_90, cos_PI2, sin_PI2. simpl. vec_ring. }
  assert (Hh : heading (Dive 90 sample) = Vec 0 0 (-1)).
  { rewrite heading_Dive, Hn. simpl. vec_ring. }
  rewrite Hh, Hn. simpl. repeat split.
  - apply vector_neq_1; simpl; lra.
  - apply vector_neq_1; simpl; lra.
  - apply vector_neq_2; unfold cross, forXZ, x, y, z; simpl; lra.
Qed.

(** ** Inverse calls *)

Lemma neg_Degree (phi : R) : - phi * Degree = - (phi * Degree).
Proof. ring. Qed.

(** Rotating there and back, given [cs] the cosine and [sn] the sine. *)
Lemma rotate_back (cs sn : R) (u w : vector) :
  cs * cs + sn * sn = 1 ->
  linear cs (linear cs u sn w) (- sn) (linear cs w sn (vopp u)) = u.
Proof.
  intros H. apply vector_eq; unfold linear, forXZ, vopp, x, y, z; simpl.
  - replace (v0 u) with ((cs * cs + sn * sn) * v0 u) at 3 by (rewrite H; ring). ring.
  - replace (v1 u) with ((cs * cs + sn * sn) * v1 u) at 3 by (rewrite H; ring). ring.
  - replace (v2 u) with ((cs * cs + sn * sn) * v2 u) at 3 by (rewrite H; ring). ring.
Qed.

Lemma cross_cross_unit (n u : vector) :
  dot n n = 1 -> dot n u = 0 -> cross n (cross n u) = vopp u.
Proof.
  intros Hn Hnu. rewrite cross_cross_r, Hn, Hnu.
  apply vector_eq; unfold linear, forXZ, vopp, x, y, z; simpl; ring.
Qed.

(** C7.  Given an orthonormal heading/normal pair: Move(d) followed by
    Move(-d) restores position, Turn(phi) followed by Turn(-phi) restores
    heading, and Roll(psi) followed by Roll(-psi) restores normal. *)
Theorem inverse_calls (t : turtle) (d phi psi : R) :
  orthonormal (heading t) (normal t) ->
  position (Move (- d) (Move d t)) = position t
  /\ heading (Turn (- phi) (Turn phi t)) = heading t
  /\ normal (Roll (- psi) (Roll psi t)) = normal t.
Proof.
  intros HF. apply unitFrame_orthonormal in HF. destruct HF as (Hh & Hn & Hhn).
  assert (Hnh : dot (normal t) (heading t) = 0) by (rewrite dot_sym; exact Hhn).
  repeat split.
  - rewrite !position_Move, heading_Move, unit_Move.
    apply vector_eq; unfold linear, forXZ, x, y, z; simpl; ring.
  - rewrite heading_Turn, normal_Turn, heading_Turn.
    rewrite neg_Degree, cos_neg, sin_neg, cross_linear_r.
    rewrite (cross_cross_unit _ _ Hn Hnh).
    apply rotate_back, sin2_cos2_mult.
  - rewrite normal_Roll, heading_Roll, normal_Roll.
    rewrite neg_Degree, cos_neg, sin_neg, cross_linear_r.
    rewrite (cross_cross_unit _ _ Hh Hhn).
    apply rotate_back, sin2_cos2_mult.
Qed.

Lemma inverse_calls_witness :
  position (Move (- 2) (Move 2 sample)) = position sample
  /\ heading (Turn (- 90) (Turn 90 sample)) = heading sample
  /\ normal (Roll (- 45) (Roll 45 sample)) = normal sample.
Proof.
  apply (inverse_calls sample 2 90 45).
  apply unitFrame_orthonormal. simpl. apply unitFrame_canonical.
Defined.

(** ** Home *)

Lemma home_Move (d : R) (t : turtle) : home (Move d t) = home t.
Proof. by_logging t. Qed.

Lemma home_Turn (phi : R) (t : turtle) : home (Turn phi t) = home t.
Proof. by_logging t. Qed.

Lemma home_Roll (psi : R) (t : turtle) : home (Roll psi t) = home t.
Proof. by_logging t. Qed.

Lemma home_perform (t : turtle) (k : call) : home (perform t k) = home t.
Proof.
  destruct k; cbn [perform]; try (by_logging t; fail).
  unfold Segment. rewrite home_Turn, home_Roll. apply home_Move.
Qed.

Lemma home_performAll (ks : list call) (t : turtle) :
  home (performAll t ks) = home t.
Proof.
  revert t. induction ks as [|k ks IH]; intros t; simpl.
  - reflexivity.
  - rewrite IH. apply home_perform.
Qed.

Lemma Home_frame (t : turtle) :
  position (Home t) = home t /\ heading (Home t) = Vec 0 1 0
  /\ normal (Home t) = Vec 0 0 1.
Proof. repeat split; by_logging t. Qed.

Lemma Home_Home (t : turtle) : sameButLog (Home (Home t)) (Home t).
Proof. unfold sameButLog. repeat split; by_logging t. Qed.

(** C8.  From every reachable state, Home() sets position to the home point
    of construction time, heading to (0,1,0) and normal to (0,0,1); calling it
    again changes nothing of the state (the log, when logging, gets one more
    line). *)
Theorem Home_resets (doc : document) (dflt : defaultsT) (options : optionsT)
    (t0 t : turtle) (ks : list call) :
  Turtle doc dflt options = Some t0 ->
  t = performAll t0 ks ->
  position (Home t) = home t0
  /\ home t0 = position t0
  /\ heading (Home t) = Vec 0 1 0
  /\ normal (Home t) = Vec 0 0 1
  /\ position (Home (Home t)) = position (Home t)
  /\ heading (Home (Home t)) = heading (Home t)
  /\ normal (Home (Home t)) = normal (Home t)
  /\ sameButLog (Home (Home t)) (Home t).
Proof.
  intros Hc ->.
  destruct (Home_frame (performAll t0 ks)) as (Hp & Hh & Hn).
  pose proof (Home_Home (performAll t0 ks)) as HH.
  destruct HH as (? & ? & ? & ? & ? & Hp2 & Hh2 & Hn2 & ? & ? & ?).
  rewrite home_performAll in Hp.
  assert (Hhome : home t0 = position t0).
  { unfold Turtle, Init in Hc.
    destruct (doc _) as [cx|]; [|discriminate].
    injection Hc as <-. reflexivity. }
  split; [exact Hp|]. split; [exact Hhome|]. split; [exact Hh|].
  split; [exact Hn|]. split; [exact Hp2|]. split; [exact Hh2|].
  split; [exact Hn2|]. apply Home_Home.
Qed.

Lemma Home_resets_witness :
  let t := performAll sample [CMove 2; CTurn 90; CDive 30; CPenUp; CMove 1] in
  position (Home t) = home sample
  /\ home sample = position sample
  /\ heading (Home t) = Vec 0 1 0
  /\ normal (Home t) = Vec 0 0 1
  /\ position (Home (Home t)) = position (Home t)
  /\ heading (Home (Home t)) = heading (Home t)
  /\ normal (Home (Home t)) = normal (Home t)
  /\ sameButLog (Home (Home t)) (Home t).
Proof.
  intros t.
  apply (Home_resets sampleDocument initialDefaults noOptions sample t
           [CMove 2; CTurn 90; CDive 30; CPenUp; CMove 1]).
  - reflexivity.
  - reflexivity.
Defined.

(** ** Frame effects *)

Lemma DrawTurtle_state (c : string) (t : turtle) :
  position (DrawTurtle c t) = position t
  /\ heading (DrawTurtle c t) = heading t
  /\ normal (DrawTurtle c t) = normal t
  /\ pen (DrawTurtle c t) = pen t
  /\ penStyle (DrawTurtle c t) = penStyle t
  /\ penWidth (DrawTurtle c t) = penWidth t
  /\ home (DrawTurtle c t) = home t
  /\ unit (DrawTurtle c t) = unit t
  /\ canvasID (DrawTurtle c t) = canvasID t
  /\ logging (DrawTurtle c t) = logging t.
Proof. repeat split; by_logging t. Qed.

(** C10.  Turn, Roll and Dive leave position unchanged, and DrawTurtle
    leaves position, heading, normal, pen flag, pen style and pen width
    unchanged (as well as home, unit, canvas id and the logging flag). *)
Theorem position_and_state_kept (t : turtle) (phi psi theta : R) (c : string) :
  position (Turn phi t) = position t
  /\ position (Roll psi t) = position t
  /\ position (Dive theta t) = position t
  /\ position (DrawTurtle c t) = position t
  /\ heading (DrawTurtle c t) = heading t
  /\ normal (DrawTurtle c t) = normal t
  /\ pen (DrawTurtle c t) = pen t
  /\ penStyle (DrawTurtle c t) = penStyle t
  /\ penWidth (DrawTurtle c t) = penWidth t
  /\ home (DrawTurtle c t) = home t
  /\ unit (DrawTurtle c t) = unit t
  /\ canvasID (DrawTurtle c t) = canvasID t
  /\ logging (DrawTurtle c t) = logging t.
Proof.
  split; [apply position_Turn|].
  split; [apply position_Roll|].
  split; [apply position_Dive|].
  apply DrawTurtle_state.
Qed.

(** ** Move *)

Lemma context_Move (d : R) (t : turtle) :
  context (Move d t)
  = if pen t then issue (moveStroke t (position (Move d t))) (context t)
    else context t.
Proof. by_logging t. Qed.

Lemma paints_moveStroke (s : surface) (t : turtle) (p : vector) :
  paints s (moveStroke t p)
  = [Stroked [project (position t); project p] false (penStyle t) (penWidth t)].
Proof. reflexivity. Qed.

(** C5.  Move(d) sets position to position + (d * unit) * heading and leaves
    heading and normal unchanged.  When the pen is active it issues the
    commands of one stroke, which paint a single line segment from the old to
    the new projected position in the pen style and width; when the pen is not
    active it issues nothing. *)
Theorem Move_spec (t : turtle) (d : R) (s : surface) :
  let emitted :=
    if pen t then moveStroke t (position (Move d t)) else [] in
  position (Move d t) = vadd (position t) (vscale (d * unit t) (heading t))
  /\ heading (Move d t) = heading t
  /\ normal (Move d t) = normal t
  /\ issued (context (Move d t)) = issued (context t) ++ emitted
  /\ paints s emitted
     = if pen t
       then [Stroked [project (position t); project (position (Move d t))]
               false (penStyle t) (penWidth t)]
       else [].
Proof.
  intros emitted.
  split.
  { rewrite position_Move.
    apply vector_eq; unfold linear, forXZ, x, y, z; simpl; ring. }
  split; [apply heading_Move|].
  split; [apply normal_Move|].
  unfold emitted. rewrite context_Move.
  destruct (pen t); simpl.
  - split; [reflexivity|]. apply paints_moveStroke.
  - split; [rewrite app_nil_r; reflexivity|reflexivity].
Qed.

(** ** What DrawTurtle paints *)

Lemma paints_drawGlyph (s : surface) (t : turtle) (c : string) :
  paints s (drawGlyph t c)
  = if Rge_dec (idx (normal t) z) 0 then wingsPaint t c ++ finPaint t c
    else finPaint t c ++ wingsPaint t c.
Proof.
  unfold drawGlyph, drawWings, wingDecorations, drawFin, wingsPaint,
    decorationPaint, finPaint.
  destruct (Rge_dec (idx (normal t) z) 0);
    destruct (Rge_dec (idx (left t) z) 0); reflexivity.
Qed.

Lemma drawGlyph_logLine (l : logLine) (t : turtle) (c : string) :
  drawGlyph (logLine_ l t) c = drawGlyph t c.
Proof. unfold logLine_. destruct (logging t); reflexivity. Qed.

Lemma issued_DrawTurtle (c : string) (t : turtle) :
  issued (context (DrawTurtle c t)) = issued (context t) ++ drawGlyph t c.
Proof.
  unfold DrawTurtle. rewrite drawGlyph_logLine.
  unfold draw, logLine_. destruct (logging t); reflexivity.
Qed.

Lemma Rge_dec_true (r : R) (A : Type) (u v : A) :
  r >= 0 -> (if Rge_dec r 0 then u else v) = u.
Proof. intros H. destruct (Rge_dec r 0); [reflexivity|contradiction]. Qed.

Lemma Rge_dec_false (r : R) (A : Type) (u v : A) :
  r < 0 -> (if Rge_dec r 0 then u else v) = v.
Proof. intros H. destruct (Rge_dec r 0); [lra|reflexivity]. Qed.

Lemma turtle_eq_normal (t1 t2 : turtle) :
  log t1 = log t2 -> logging t1 = logging t2 -> unit t1 = unit t2 ->
  canvasID t1 = canvasID t2 -> context t1 = context t2 -> home t1 = home t2 ->
  position t1 = position t2 -> heading t1 = heading t2 ->
  normal t1 = normal t2 -> pen t1 = pen t2 -> penStyle t1 = penStyle t2 ->
  penWidth t1 = penWidth t2 -> t1 = t2.
Proof. destruct t1, t2; simpl; intros; subst; reflexivity. Qed.

Lemma Degree_180 : 180 * Degree = PI.
Proof. unfold Degree. field. Qed.

Lemma Degree_m90 : -90 * Degree = - (PI / 2).
Proof. unfold Degree. field. Qed.

Lemma sampleDown_reached : Roll 180 sample = sampleDown.
Proof.
  apply turtle_eq_normal; try reflexivity.
  rewrite normal_Roll, Degree_180, cos_PI, sin_PI. simpl. vec_ring.
Qed.

Lemma sampleRolled_reached : Roll (-90) sample = sampleRolled.
Proof.
  apply turtle_eq_normal; try reflexivity.
  rewrite normal_Roll, Degree_m90, cos_neg, sin_neg, cos_PI2, sin_PI2.
  simpl. vec_ring.
Qed.

(** C2.  DrawTurtle(color) with normal.z >= 0 issues all wing commands before
    the fin commands, and with normal.z < 0 the fin commands before the wing
    commands; what is painted comes in the same order. *)
Theorem draw_order (t : turtle) (c : string) (s : surface) :
  (idx (normal t) z >= 0 ->
     issued (context (DrawTurtle c t))
     = issued (context t)
       ++ [Save; SetLineWidth 1; SetLineCap "round"; SetLineJoin "round"]
       ++ drawWings t c ++ drawFin t c ++ [Restore]
     /\ paints s (drawGlyph t c) = wingsPaint t c ++ finPaint t c)
  /\ (idx (normal t) z < 0 ->
     issued (context (DrawTurtle c t))
     = issued (context t)
       ++ [Save; SetLineWidth 1; SetLineCap "round"; SetLineJoin "round"]
       ++ drawFin t c ++ drawWings t c ++ [Restore]
     /\ paints s (drawGlyph t c) = finPaint t c ++ wingsPaint t c).
Proof.
  split; intros H; rewrite issued_DrawTurtle, paints_drawGlyph; unfold drawGlyph.
  - rewrite !(Rge_dec_true _ _ _ _ H), <- app_assoc. split; reflexivity.
  - rewrite !(Rge_dec_false _ _ _ _ H), <- app_assoc. split; reflexivity.
Qed.

Lemma draw_order_witness :
  (issued (context (DrawTurtle "red" sample))
   = issued (context sample)
     ++ [Save; SetLineWidth 1; SetLineCap "round"; SetLineJoin "round"]
     ++ drawWings sample "red" ++ drawFin sample "red" ++ [Restore]
   /\ paints blank (drawGlyph sample "red")
      = wingsPaint sample "red" ++ finPaint sample "red")
  /\ (issued (context (DrawTurtle "red" sampleDown))
      = issued (context sampleDown)
        ++ [Save; SetLineWidth 1; SetLineCap "round"; SetLineJoin "round"]
        ++ drawFin sampleDown "red" ++ drawWings sampleDown "red" ++ [Restore]
      /\ paints blank (drawGlyph sampleDown "red")
         = finPaint sampleDown "red" ++ wingsPaint sampleDown "red").
Proof.
  split.
  - apply (draw_order sample "red" blank). simpl. lra.
  - apply (draw_order sampleDown "red" blank). simpl. lra.
Defined.

(** C6.  With left = cross(normal, heading): when left.z >= 0, DrawTurtle(color)
    fills the fin face white and strokes the fin edge in color; when
    left.z < 0 it fills the fin face in color and strokes the fin edge
    white. *)
Theorem fin_colours (t : turtle) (c : string) (s : surface) :
  let lft := cross (normal t) (heading t) in
  (idx lft z >= 0 ->
     drawFin t c = drawFinFace t "white" ++ drawFinEdge t c
     /\ paints s (drawGlyph t c)
        = if Rge_dec (idx (normal t) z) 0
          then wingsPaint t c ++ [finFace t "white"; finEdge t c]
          else [finFace t "white"; finEdge t c] ++ wingsPaint t c)
  /\ (idx lft z < 0 ->
     drawFin t c = drawFinEdge t "white" ++ drawFinFace t c
     /\ paints s (drawGlyph t c)
        = if Rge_dec (idx (normal t) z) 0
          then wingsPaint t c ++ [finEdge t "white"; finFace t c]
          else [finEdge t "white"; finFace t c] ++ wingsPaint t c).
Proof.
  intros lft. split; intros H; rewrite paints_drawGlyph;
    unfold drawFin, finPaint; fold lft.
  - rewrite !(Rge_dec_true _ _ _ _ H). split; reflexivity.
  - rewrite !(Rge_dec_false _ _ _ _ H). split; reflexivity.
Qed.

Lemma fin_colours_witness :
  (drawFin sample "red" = drawFinFace sample "white" ++ drawFinEdge sample "red"
   /\ paints blank (drawGlyph sample "red")
      = if Rge_dec (idx (normal sample) z) 0
        then wingsPaint sample "red" ++ [finFace sample "white"; finEdge sample "red"]
        else [finFace sample "white"; finEdge sample "red"] ++ wingsPaint sample "red")
  /\ (drawFin sampleRolled "red"
      = drawFinEdge sampleRolled "white" ++ drawFinFace sampleRolled "red"
      /\ paints blank (drawGlyph sampleRolled "red")
         = if Rge_dec (idx (normal sampleRolled) z) 0
           then wingsPaint sampleRolled "red"
                ++ [finEdge sampleRolled "white"; finFace sampleRolled "red"]
           else [finEdge sampleRolled "white"; finFace sampleRolled "red"]
                ++ wingsPaint sampleRolled "red").
Proof.
  split.
  - apply (fin_colours sample "red" blank).
    unfold cross, forXZ, x, y, z; simpl. lra.
  - apply (fin_colours sampleRolled "red" blank).
    unfold cross, forXZ, x, y, z; simpl. lra.
Defined.

(** ** Wing decorations *)

Lemma sa_half : sa = 1 / 2.
Proof. unfold sa, alpha. rewrite Degree_30. apply sin_PI6. Qed.

Lemma hair_sampleDown_differ :
  hair sampleDown (tip sampleDown Starboard)
  <> hair sampleDown (tip sampleDown Portside).
Proof.
  intros E. apply (f_equal snd) in E. revert E.
  unfold hair, tip, star, port, back, nose, left, a, h, cross, linear, forXZ,
    x, y, z; simpl.
  rewrite sa_half. lra.
Qed.

(** C3, as the claim has it, fails: with normal.z < 0 the starboard side,
    stroked white in the eyes case, is not stroked with color; it is stroked
    white again. *)
Lemma decoration_swap_counterexample :
  idx (normal sampleDown) z < 0
  /\ In (eyeStroke sample Starboard "white") (paints blank (drawGlyph sample "red"))
  /\ ~ In (hairStroke sampleDown Starboard "red")
          (paints blank (drawGlyph sampleDown "red"))
  /\ In (hairStroke sampleDown Starboard "white")
        (paints blank (drawGlyph sampleDown "red")).
Proof.
  assert (Hup : idx (normal sample) z >= 0) by (simpl; lra).
  assert (Hdown : idx (normal sampleDown) z < 0) by (simpl; lra).
  split; [exact Hdown|].
  rewrite !paints_drawGlyph.
  rewrite (Rge_dec_true _ _ _ _ Hup), (Rge_dec_false _ _ _ _ Hdown).
  unfold wingsPaint, decorationPaint.
  rewrite (Rge_dec_true _ _ _ _ Hup), (Rge_dec_false _ _ _ _ Hdown).
  split; [|split].
  - apply in_or_app; left. apply in_or_app; right. apply in_or_app; left.
    left; reflexivity.
  - intros Hin.
    apply in_app_or in Hin. destruct Hin as [Hin|Hin].
    { unfold finPaint in Hin.
      destruct (Rge_dec _ 0); simpl in Hin;
        destruct Hin as [Hin|[Hin|[]]]; discriminate Hin. }
    apply in_app_or in Hin. destruct Hin as [Hin|Hin].
    { simpl in Hin. destruct Hin as [Hin|[Hin|[]]]; discriminate Hin. }
    apply in_app_or in Hin. destruct Hin as [Hin|Hin].
    { simpl in Hin. destruct Hin as [Hin|[Hin|[]]].
      - apply hair_sampleDown_differ.
        unfold hairStroke in Hin. congruence.
      - discriminate Hin. }
    simpl in Hin. destruct Hin as [Hin|[Hin|[]]]; discriminate Hin.
  - apply in_or_app; right. apply in_or_app; right. apply in_or_app; left.
    right; left; reflexivity.
Qed.

(** C3, amended.  DrawTurtle(color) draws the eyes when normal.z >= 0 and the
    cross hair when normal.z < 0.  In both cases the decoration on the
    starboard side is stroked white and the one on the port side is stroked
    in color; the cross-hair case swaps the order of the two strokes, port
    first and starboard second. *)
Theorem decoration_by_orientation (t : turtle) (c : string) (s : surface) :
  (idx (normal t) z >= 0 ->
     paints s (drawGlyph t c)
     = wingFills t c
       ++ [eyeStroke t Starboard "white"; eyeStroke t Portside c]
       ++ wingEdges t c ++ finPaint t c)
  /\ (idx (normal t) z < 0 ->
     paints s (drawGlyph t c)
     = finPaint t c ++ wingFills t c
       ++ [hairStroke t Portside c; hairStroke t Starboard "white"]
       ++ wingEdges t c).
Proof.
  split; intros H; rewrite paints_drawGlyph;
    unfold wingsPaint, decorationPaint.
  - rewrite !(Rge_dec_true _ _ _ _ H), <- !app_assoc. reflexivity.
  - rewrite !(Rge_dec_false _ _ _ _ H). reflexivity.
Qed.

Lemma decoration_by_orientation_witness :
  paints blank (drawGlyph sample "red")
  = wingFills sample "red"
    ++ [eyeStroke sample Starboard "white"; eyeStroke sample Portside "red"]
    ++ wingEdges sample "red" ++ finPaint sample "red"
  /\ paints blank (drawGlyph sampleDown "red")
     = finPaint sampleDown "red" ++ wingFills sampleDown "red"
       ++ [hairStroke sampleDown Portside "red";
           hairStroke sampleDown Starboard "white"]
       ++ wingEdges sampleDown "red".
Proof.
  split.
  - apply (decoration_by_orientation sample "red" blank). simpl. lra.
  - apply (decoration_by_orientation sampleDown "red" blank). simpl. lra.
Defined.

(** * Further properties *)

(** ** Rotations as rotations *)

Lemma add_Degree (al be : R) : (al + be) * Degree = al * Degree + be * Degree.
Proof. ring. Qed.

(** Rotating twice, given the sines and cosines. *)
Lemma rotate_twice (c1 s1 c2 s2 : R) (u w : vector) :
  linear c2 (linear c1 u s1 w) s2 (linear c1 w s1 (vopp u))
  = linear (c1 * c2 - s1 * s2) u (s1 * c2 + c1 * s2) w.
Proof.
  apply vector_eq; unfold linear, forXZ, vopp, x, y, z; simpl; ring.
Qed.

(** Turn(phi) then Turn(phi') is Turn(phi + phi') on the heading, and
    likewise Roll on the normal, for an orthonormal frame. *)
Theorem Turn_Roll_compose (t : turtle) (phi phi' : R) :
  orthonormal (heading t) (normal t) ->
  heading (Turn phi' (Turn phi t)) = heading (Turn (phi + phi') t)
  /\ normal (Roll phi' (Roll phi t)) = normal (Roll (phi + phi') t).
Proof.
  intros HF. apply unitFrame_orthonormal in HF. destruct HF as (Hh & Hn & Hhn).
  assert (Hnh : dot (normal t) (heading t) = 0) by (rewrite dot_sym; exact Hhn).
  split.
  - rewrite (heading_Turn phi'), normal_Turn, !heading_Turn.
    rewrite cross_linear_r, (cross_cross_unit _ _ Hn Hnh), rotate_twice.
    rewrite add_Degree, cos_plus, sin_plus. reflexivity.
  - rewrite (normal_Roll phi'), heading_Roll, !normal_Roll.
    rewrite cross_linear_r, (cross_cross_unit _ _ Hh Hhn), rotate_twice.
    rewrite add_Degree, cos_plus, sin_plus. reflexivity.
Qed.

Lemma Turn_Roll_compose_witness :
  heading (Turn 60 (Turn 30 sample)) = heading (Turn (30 + 60) sample)
  /\ normal (Roll 60 (Roll 30 sample)) = normal (Roll (30 + 60) sample).
Proof.
  apply (Turn_Roll_compose sample 30 60).
  apply unitFrame_orthonormal. simpl. apply unitFrame_canonical.
Defined.

(** Dive(theta) then Dive(theta') is Dive(theta + theta') on heading and
    normal, for an orthonormal frame. *)
Theorem Dive_compose (t : turtle) (theta theta' : R) :
  orthonormal (heading t) (normal t) ->
  heading (Dive theta' (Dive theta t)) = heading (Dive (theta + theta') t)
  /\ normal (Dive theta' (Dive theta t)) = normal (Dive (theta + theta') t).
Proof.
  intros HF. apply unitFrame_orthonormal in HF.
  pose proof (unitFrame_Dive theta t HF) as HF'.
  split.
  - rewrite (heading_Dive_unitFrame theta' _ HF').
    rewrite (heading_Dive_unitFrame theta _ HF), normal_Dive.
    rewrite (heading_Dive_unitFrame _ _ HF).
    rewrite add_Degree, cos_plus, sin_plus.
    apply vector_eq; unfold linear, forXZ, x, y, z; simpl; ring.
  - rewrite (normal_Dive theta'), (heading_Dive_unitFrame theta _ HF), !normal_Dive.
    rewrite add_Degree, cos_plus, sin_plus.
    apply vector_eq; unfold linear, forXZ, x, y, z; simpl; ring.
Qed.

Lemma Dive_compose_witness :
  heading (Dive 60 (Dive 30 sample)) = heading (Dive (30 + 60) sample)
  /\ normal (Dive 60 (Dive 30 sample)) = normal (Dive (30 + 60) sample).
Proof.
  apply (Dive_compose sample 30 60).
  apply unitFrame_orthonormal. simpl. apply unitFrame_canonical.
Defined.

(** Dive turns about the left axis: left = cross(normal, heading) is the
    same after the call, for an orthonormal frame. *)
Theorem Dive_keeps_left (t : turtle) (theta : R) :
  orthonormal (heading t) (normal t) ->
  cross (normal (Dive theta t)) (heading (Dive theta t))
  = cross (normal t) (heading t).
Proof.
  intros HF. apply unitFrame_orthonormal in HF.
  rewrite (heading_Dive_unitFrame _ _ HF), normal_Dive.
  generalize (sin2_cos2_mult (theta * Degree)).
  set (cs := cos (theta * Degree)). set (sn := sin (theta * Degree)).
  intros H.
  apply vector_eq; unfold cross, linear, forXZ, x, y, z; simpl.
  - replace (v1 (normal t) * v2 (heading t) - v2 (normal t) * v1 (heading t))
      with ((cs * cs + sn * sn)
            * (v1 (normal t) * v2 (heading t) - v2 (normal t) * v1 (heading t)))
      by (rewrite H; ring).
    ring.
  - replace (v2 (normal t) * v0 (heading t) - v0 (normal t) * v2 (heading t))
      with ((cs * cs + sn * sn)
            * (v2 (normal t) * v0 (heading t) - v0 (normal t) * v2 (heading t)))
      by (rewrite H; ring).
    ring.
  - replace (v0 (normal t) * v1 (heading t) - v1 (normal t) * v0 (heading t))
      with ((cs * cs + sn * sn)
            * (v0 (normal t) * v1 (heading t) - v1 (normal t) * v0 (heading t)))
      by (rewrite H; ring).
    ring.
Qed.

Lemma Dive_keeps_left_witness :
  cross (normal (Dive 30 sample)) (heading (Dive 30 sample))
  = cross (normal sample) (heading sample).
Proof.
  apply (Dive_keeps_left sample 30).
  apply unitFrame_orthonormal. simpl. apply unitFrame_canonical.
Defined.

(** The angle of a rotation: Turn(phi) takes heading to
    cos(phi) heading + sin(phi) left, so that for an orthonormal frame the
    new heading makes the angle phi with the old one, on the side of left;
    Roll does so for normal on the side of right, and Dive for normal on the
    side of heading. *)
Theorem rotation_angles (t : turtle) (phi : R) :
  orthonormal (heading t) (normal t) ->
  let lft := cross (normal t) (heading t) in
  let rgt := cross (heading t) (normal t) in
  dot (heading (Turn phi t)) (heading t) = cos (phi * Degree)
  /\ dot (heading (Turn phi t)) lft = sin (phi * Degree)
  /\ dot (normal (Roll phi t)) (normal t) = cos (phi * Degree)
  /\ dot (normal (Roll phi t)) rgt = sin (phi * Degree)
  /\ dot (normal (Dive phi t)) (normal t) = cos (phi * Degree)
  /\ dot (normal (Dive phi t)) (heading t) = sin (phi * Degree)
  /\ dot (heading (Dive phi t)) (heading t) = cos (phi * Degree).
Proof.
  intros HF lft rgt. apply unitFrame_orthonormal in HF.
  rewrite (heading_Dive_unitFrame _ _ HF).
  destruct HF as (Hh & Hn & Hhn).
  assert (Hnh : dot (normal t) (heading t) = 0) by (rewrite dot_sym; exact Hhn).
  unfold lft, rgt.
  rewrite heading_Turn, normal_Roll, normal_Dive, !dot_linear_l.
  rewrite ?dot_cross_cross, ?dot_cross_l, ?dot_cross_r, ?dot_l_cross, ?dot_r_cross.
  rewrite ?Hh, ?Hn, ?Hhn, ?Hnh.
  repeat split; ring.
Qed.

Lemma rotation_angles_witness :
  let lft := cross (normal sample) (heading sample) in
  let rgt := cross (heading sample) (normal sample) in
  dot (heading (Turn 30 sample)) (heading sample) = cos (30 * Degree)
  /\ dot (heading (Turn 30 sample)) lft = sin (30 * Degree)
  /\ dot (normal (Roll 30 sample)) (normal sample) = cos (30 * Degree)
  /\ dot (normal (Roll 30 sample)) rgt = sin (30 * Degree)
  /\ dot (normal (Dive 30 sample)) (normal sample) = cos (30 * Degree)
  /\ dot (normal (Dive 30 sample)) (heading sample) = sin (30 * Degree)
  /\ dot (heading (Dive 30 sample)) (heading sample) = cos (30 * Degree).
Proof.
  apply (rotation_angles sample 30).
  apply unitFrame_orthonormal. simpl. apply unitFrame_canonical.
Defined.

(** ** Moving *)

Lemma sqrt_square_abs (r : R) : sqrt (r * r) = Rabs r.
Proof. apply (sqrt_Rsqr_abs r). Qed.

(** Move(d) displaces the turtle by |d * unit| when heading is a unit
    vector. *)
Theorem Move_distance (t : turtle) (d : R) :
  norm (heading t) = 1 ->
  dist (position (Move d t)) (position t) = Rabs (d * unit t).
Proof.
  intros Hh. apply norm_1_dot in Hh.
  unfold dist, norm. rewrite position_Move.
  replace (dot _ _) with ((d * unit t) * (d * unit t) * dot (heading t) (heading t))
    by dot_ring.
  rewrite Hh, Rmult_1_r. apply sqrt_square_abs.
Qed.

Lemma Move_distance_witness :
  dist (position (Move (-2) sample)) (position sample) = Rabs (-2 * unit sample).
Proof.
  apply (Move_distance sample (-2)).
  apply norm_1_dot. unfold dot; simpl. ring.
Defined.

(** Moves add up: Move(d) then Move(d') ends where Move(d + d') does. *)
Theorem Move_compose (t : turtle) (d d' : R) :
  position (Move d' (Move d t)) = position (Move (d + d') t)
  /\ heading (Move d' (Move d t)) = heading t
  /\ normal (Move d' (Move d t)) = normal t.
Proof.
  rewrite !position_Move, !heading_Move, !normal_Move, unit_Move.
  repeat split.
  apply vector_eq; unfold linear, forXZ, x, y, z; simpl; ring.
Qed.

(** ** Segments *)

Lemma unit_Turn (phi : R) (t : turtle) : unit (Turn phi t) = unit t.
Proof. by_logging t. Qed.

Lemma unit_Roll (psi : R) (t : turtle) : unit (Roll psi t) = unit t.
Proof. by_logging t. Qed.

Lemma cross_vopp_r (u v : vector) : cross u (vopp v) = vopp (cross u v).
Proof. apply vector_eq; unfold cross, vopp, forXZ, x, y, z; simpl; ring. Qed.

Lemma vopp_vopp (u : vector) : vopp (vopp u) = u.
Proof. apply vector_eq; unfold vopp; simpl; ring. Qed.

Lemma Degree_0 : 0 * Degree = 0.
Proof. ring. Qed.

Lemma squareSide_frame (d : R) (t : turtle) :
  position (squareSide d t) = linear 1 (position t) (d * unit t) (heading t)
  /\ heading (squareSide d t) = cross (normal t) (heading t)
  /\ normal (squareSide d t) = normal t
  /\ unit (squareSide d t) = unit t.
Proof.
  unfold squareSide, Segment.
  assert (Hn : normal (Roll 0 (Move d t)) = normal t).
  { rewrite normal_Roll, heading_Move, normal_Move, Degree_0, cos_0, sin_0.
    apply vector_eq; unfold linear, forXZ, x, y, z; simpl; ring. }
  split; [rewrite position_Turn, position_Roll; apply position_Move|].
  split.
  { rewrite heading_Turn, Hn, heading_Roll, heading_Move.
    rewrite Degree_90, cos_PI2, sin_PI2.
    apply vector_eq; unfold linear, forXZ, x, y, z; simpl; ring. }
  split; [rewrite normal_Turn; exact Hn|].
  rewrite unit_Turn, unit_Roll. apply unit_Move.
Qed.

(** A square closes: four times Segment(d, 0, 90) bring the turtle back to
    its position and heading, normal unchanged, for an orthonormal frame. *)
Theorem square_closes (t : turtle) (d : R) :
  orthonormal (heading t) (normal t) ->
  let t4 := squareSide d (squareSide d (squareSide d (squareSide d t))) in
  position t4 = position t /\ heading t4 = heading t /\ normal t4 = normal t.
Proof.
  intros HF t4. apply unitFrame_orthonormal in HF. destruct HF as (Hh & Hn & Hhn).
  assert (Hnh : dot (normal t) (heading t) = 0) by (rewrite dot_sym; exact Hhn).
  pose proof (cross_cross_unit _ _ Hn Hnh) as F1.
  unfold t4.
  destruct (squareSide_frame d (squareSide d (squareSide d (squareSide d t))))
    as (P4 & H4 & N4 & _).
  destruct (squareSide_frame d (squareSide d (squareSide d t)))
    as (P3 & H3 & N3 & U3).
  destruct (squareSide_frame d (squareSide d t)) as (P2 & H2 & N2 & U2).
  destruct (squareSide_frame d t) as (P1 & H1 & N1 & U1).
  rewrite N1 in *. rewrite N2 in *. rewrite N3 in *.
  rewrite U1 in *. rewrite U2 in *. rewrite U3 in *.
  rewrite H1 in *. rewrite F1 in H2. rewrite H2 in *.
  rewrite cross_vopp_r in H3. rewrite H3 in *.
  rewrite cross_vopp_r, F1, vopp_vopp in H4.
  split; [|split; [exact H4|exact N4]].
  rewrite P4, P3, P2, P1.
  apply vector_eq; unfold linear, vopp, forXZ, x, y, z; simpl; ring.
Qed.

Lemma square_closes_witness :
  let t4 := squareSide 2 (squareSide 2 (squareSide 2 (squareSide 2 sample))) in
  position t4 = position sample /\ heading t4 = heading sample
  /\ normal t4 = normal sample.
Proof.
  apply (square_closes sample 2).
  apply unitFrame_orthonormal. simpl. apply unitFrame_canonical.
Defined.

(** ** With the pen up nothing is drawn *)

Lemma pen_Move (d : R) (t : turtle) : pen (Move d t) = pen t.
Proof.
  unfold Move, draw, logLine_.
  destruct (logging t); simpl; destruct (pen t) eqn:E; simpl;
    rewrite ?E; reflexivity.
Qed.

Lemma pen_Turn (phi : R) (t : turtle) : pen (Turn phi t) = pen t.
Proof. by_logging t. Qed.

Lemma pen_Roll (psi : R) (t : turtle) : pen (Roll psi t) = pen t.
Proof. by_logging t. Qed.

Lemma context_Turn (phi : R) (t : turtle) : context (Turn phi t) = context t.
Proof. by_logging t. Qed.

Lemma context_Roll (psi : R) (t : turtle) : context (Roll psi t) = context t.
Proof. by_logging t. Qed.

Lemma pen_kept (k : call) (t : turtle) :
  match k with
  | CPenActive _ | CPenDown | CPenUp => True
  | _ => pen (perform t k) = pen t
  end.
Proof.
  destruct k; cbn [perform]; trivial;
    try apply pen_Move;
    try (unfold Segment; rewrite pen_Turn, pen_Roll; apply pen_Move);
    by_logging t.
Qed.

Lemma context_kept (k : call) (t : turtle) :
  match k with
  | CClean _ | CMove _ | CSegment _ _ _ | CDrawTurtle _ => True
  | _ => context (perform t k) = context t
  end.
Proof. destruct k; cbn [perform]; trivial; by_logging t. Qed.

Lemma quiet_perform (k : call) (t : turtle) :
  pen t = false -> quiet k ->
  context (perform t k) = context t /\ pen (perform t k) = false.
Proof.
  intros Hp Hq.
  pose proof (pen_kept k t) as HK. pose proof (context_kept k t) as HC.
  destruct k; cbn [perform quiet] in *; try contradiction;
    try (split; [exact HC | rewrite HK; exact Hp]).
  - subst b. split; [exact HC | by_logging t].
  - split; [exact HC | by_logging t].
  - split; [rewrite context_Move, Hp; reflexivity | rewrite HK; exact Hp].
  - split; [|rewrite HK; exact Hp].
    unfold Segment. rewrite context_Turn, context_Roll, context_Move, Hp.
    reflexivity.
Qed.

(** While the pen is up, no sequence of calls other than PenDown,
    PenActive(true), DrawTurtle and Clean issues any command on the
    canvas. *)
Theorem pen_up_draws_nothing (t : turtle) (ks : list call) :
  pen t = false ->
  Forall quiet ks ->
  context (performAll t ks) = context t /\ pen (performAll t ks) = false.
Proof.
  intros Hp Hq. revert t Hp.
  induction Hq as [|k ks Hk _ IH]; intros t Hp; simpl.
  - split; [reflexivity|exact Hp].
  - destruct (quiet_perform k t Hp Hk) as [Hc Hp'].
    destruct (IH _ Hp') as [Hc' Hp''].
    split; [rewrite Hc'; exact Hc|exact Hp''].
Qed.

Lemma pen_up_draws_nothing_witness :
  context (performAll (PenUp sample)
             [CMove 2; CTurn 90; CSegment 1 20 30; CHome; CSetPenStyle "red"; CMove 1])
  = context (PenUp sample)
  /\ pen (performAll (PenUp sample)
             [CMove 2; CTurn 90; CSegment 1 20 30; CHome; CSetPenStyle "red"; CMove 1])
     = false.
Proof.
  apply (pen_up_draws_nothing (PenUp sample)).
  - reflexivity.
  - repeat constructor.
Defined.

(** ** The commands of a sequence of calls *)

Lemma issued_perform (k : call) (t : turtle) :
  issued (context (perform t k)) = issued (context t) ++ emitted t k.
Proof.
  pose proof (context_kept k t) as HC.
  destruct k; cbn [perform emitted] in *;
    try (rewrite HC, app_nil_r; reflexivity).
  - unfold Clean, Clear, logLine_. destruct (logging t); reflexivity.
  - rewrite context_Move. destruct (pen t); simpl;
      [reflexivity | rewrite app_nil_r; reflexivity].
  - unfold Segment. rewrite context_Turn, context_Roll, context_Move.
    destruct (pen t); simpl; [reflexivity | rewrite app_nil_r; reflexivity].
  - apply issued_DrawTurtle.
Qed.

Lemma issued_performAll (ks : list call) (t : turtle) :
  issued (context (performAll t ks)) = issued (context t) ++ trace t ks.
Proof.
  revert t. induction ks as [|k ks IH]; intros t; simpl.
  - rewrite app_nil_r. reflexivity.
  - rewrite IH, issued_perform, app_assoc. reflexivity.
Qed.

Lemma run_app (s : surface) (ks1 ks2 : list command) :
  run s (ks1 ++ ks2) = run (run s ks1) ks2.
Proof. apply fold_left_app. Qed.

(** *** Styles are scoped *)

Lemma styles_moveStroke (s : surface) (t : turtle) (p : vector) :
  cur (run s (moveStroke t p)) = cur s /\ saved (run s (moveStroke t p)) = saved s.
Proof. split; reflexivity. Qed.

Lemma styles_drawGlyph (s : surface) (t : turtle) (c : string) :
  cur (run s (drawGlyph t c)) = cur s /\ saved (run s (drawGlyph t c)) = saved s.
Proof.
  unfold drawGlyph, drawWings, wingDecorations, drawFin.
  destruct (Rge_dec (idx (normal t) z) 0);
    destruct (Rge_dec (idx (left t) z) 0); split; reflexivity.
Qed.

Lemma styles_emitted (s : surface) (t : turtle) (k : call) :
  notClean k ->
  cur (run s (emitted t k)) = cur s /\ saved (run s (emitted t k)) = saved s.
Proof.
  destruct k; cbn [emitted notClean]; try contradiction; intros _;
    try (split; reflexivity).
  - destruct (pen t); [apply styles_moveStroke | split; reflexivity].
  - destruct (pen t); [apply styles_moveStroke | split; reflexivity].
  - apply styles_drawGlyph.
Qed.

Lemma styles_trace (ks : list call) (t : turtle) (s : surface) :
  Forall notClean ks ->
  cur (run s (trace t ks)) = cur s /\ saved (run s (trace t ks)) = saved s.
Proof.
  intros H. revert t s. induction H as [|k ks Hk _ IH]; intros t s; simpl.
  - split; reflexivity.
  - rewrite run_app.
    destruct (IH (perform t k) (run s (emitted t k))) as [-> ->].
    apply styles_emitted, Hk.
Qed.

(** Styles do not leak: the commands issued by any sequence of calls
    without Clean leave the styles of the canvas and its stack of saved
    styles as they found them, whatever these were. *)
Theorem styles_scoped (t : turtle) (ks : list call) (s : surface) :
  Forall notClean ks ->
  exists cmds,
    issued (context (performAll t ks)) = issued (context t) ++ cmds
    /\ cur (run s cmds) = cur s
    /\ saved (run s cmds) = saved s.
Proof.
  intros H. exists (trace t ks).
  split; [apply issued_performAll|]. apply styles_trace, H.
Qed.

Lemma styles_scoped_witness :
  exists cmds,
    issued (context (performAll sample
              [CSetPenStyle "red"; CMove 1; CDrawTurtle "blue"; CSegment 2 90 30]))
    = issued (context sample) ++ cmds
    /\ cur (run blank cmds) = cur blank
    /\ saved (run blank cmds) = saved blank.
Proof.
  apply (styles_scoped sample
           [CSetPenStyle "red"; CMove 1; CDrawTurtle "blue"; CSegment 2 90 30] blank).
  repeat constructor.
Defined.

(** *** The trail is connected *)

Lemma exec_strip (s : surface) (k : command) :
  painted (exec s k) = painted s ++ painted (exec (strip s) k)
  /\ strip (exec s k) = strip (exec (strip s) k).
Proof.
  destruct k; simpl; try (split; [rewrite app_nil_r|]; reflexivity);
    try (split; reflexivity).
  destruct (saved s); simpl; split; try rewrite app_nil_r; reflexivity.
Qed.

Lemma run_strip (ks : list command) (s : surface) :
  painted (run s ks) = painted s ++ painted (run (strip s) ks)
  /\ strip (run s ks) = strip (run (strip s) ks).
Proof.
  revert s. induction ks as [|k ks IH]; intros s; simpl.
  - split; [rewrite app_nil_r|]; reflexivity.
  - destruct (exec_strip s k) as [Hp Hs].
    destruct (IH (exec s k)) as [Hp1 Hs1].
    destruct (IH (exec (strip s) k)) as [Hp2 Hs2].
    fold (run (exec s k) ks). fold (run (exec (strip s) k) ks).
    rewrite Hp1, Hp2, Hs1, Hs2, Hs, Hp, app_assoc. split; reflexivity.
Qed.

Lemma paints_app (s : surface) (ks1 ks2 : list command) :
  paints s (ks1 ++ ks2) = paints s ks1 ++ paints (run s ks1) ks2.
Proof.
  unfold paints. fold (strip s). fold (strip (run s ks1)).
  rewrite run_app.
  destruct (run_strip ks2 (run (strip s) ks1)) as [-> _].
  destruct (run_strip ks1 s) as [_ ->]. reflexivity.
Qed.

Lemma chain_app (a b c : R * R) (l1 l2 : list paint) :
  chain a l1 b -> chain b l2 c -> chain a (l1 ++ l2) c.
Proof.
  induction 1 as [a|a b' c' colour width rest _ IH]; intros H2; simpl.
  - exact H2.
  - constructor. apply IH, H2.
Qed.

Lemma position_kept (k : call) (t : turtle) :
  match k with
  | CHome | CMove _ => True
  | CSegment d _ _ => position (perform t k) = position (Move d t)
  | _ => position (perform t k) = position t
  end.
Proof.
  destruct k; cbn [perform]; trivial; try (by_logging t; fail).
  unfold Segment. rewrite position_Turn. apply position_Roll.
Qed.

Lemma trailing_perform (k : call) (t : turtle) (s : surface) :
  pen t = true -> trailing k ->
  pen (perform t k) = true
  /\ chain (project (position t)) (paints s (emitted t k))
           (project (position (perform t k))).
Proof.
  intros Hp Hk.
  pose proof (pen_kept k t) as HK. pose proof (position_kept k t) as HP.
  destruct k; cbn [perform trailing emitted] in *; try contradiction;
    try (rewrite HK, HP; split; [exact Hp | apply chain_nil]).
  - subst b. split; [by_logging t|]. rewrite HP. apply chain_nil.
  - split; [by_logging t|]. rewrite HP. apply chain_nil.
  - rewrite HK, Hp, paints_moveStroke. split; [reflexivity|].
    apply chain_cons, chain_nil.
  - rewrite HK, HP, Hp, paints_moveStroke. split; [reflexivity|].
    apply chain_cons, chain_nil.
Qed.

Lemma trailing_trace (ks : list call) (t : turtle) (s : surface) :
  pen t = true -> Forall trailing ks ->
  chain (project (position t)) (paints s (trace t ks))
        (project (position (performAll t ks))).
Proof.
  intros Hp H. revert t s Hp.
  induction H as [|k ks Hk _ IH]; intros t s Hp; simpl.
  - apply chain_nil.
  - rewrite paints_app.
    destruct (trailing_perform k t s Hp Hk) as [Hp' Hc].
    eapply chain_app; [exact Hc|]. apply IH, Hp'.
Qed.

(** With the pen down, a sequence of moves, rotations, segments and changes
    of pen style or width paints a connected trail: a chain of single
    lines from the projected position before to the projected position after,
    each starting where the last one ended. *)
Theorem trail_connected (t : turtle) (ks : list call) (s : surface) :
  pen t = true ->
  Forall trailing ks ->
  exists cmds,
    issued (context (performAll t ks)) = issued (context t) ++ cmds
    /\ chain (project (position t)) (paints s cmds)
             (project (position (performAll t ks))).
Proof.
  intros Hp H. exists (trace t ks).
  split; [apply issued_performAll|]. apply trailing_trace; assumption.
Qed.

Lemma trail_connected_witness :
  exists cmds,
    issued (context (performAll sample
              [CMove 1; CTurn 90; CSetPenStyle "red"; CSegment 2 0 45; CMove (-1)]))
    = issued (context sample) ++ cmds
    /\ chain (project (position sample)) (paints blank cmds)
         (project (position (performAll sample
              [CMove 1; CTurn 90; CSetPenStyle "red"; CSegment 2 0 45; CMove (-1)]))).
Proof.
  apply (trail_connected sample
           [CMove 1; CTurn 90; CSetPenStyle "red"; CSegment 2 0 45; CMove (-1)] blank).
  - reflexivity.
  - repeat constructor.
Defined.

(** ** The shape of the turtle *)

(** The position of the turtle is the centre of the triangle nose, port
    tip, starboard tip that DrawTurtle draws, and back is the middle of the
    two wing tips. *)
Theorem glyph_centre (t : turtle) :
  vadd (nose t) (vadd (port t) (star t)) = vscale 3 (position t)
  /\ vadd (port t) (star t) = vscale 2 (back t).
Proof.
  split; apply vector_eq;
    unfold vadd, vscale, port, star, back, nose, a, linear, forXZ, x, y, z;
    simpl; field.
Qed.

Lemma left_unit (t : turtle) :
  unitFrame (heading t) (normal t) ->
  dot (left t) (left t) = 1 /\ dot (heading t) (left t) = 0
  /\ dot (left t) (heading t) = 0.
Proof.
  intros (Hh & Hn & Hhn). unfold left.
  rewrite dot_cross_cross, dot_r_cross, dot_cross_r, Hh, Hn, (dot_sym (normal t)), Hhn.
  repeat split; ring.
Qed.

Lemma ca_sa : ca * ca + sa * sa = 1.
Proof. apply sin2_cos2_mult. Qed.

(** For an orthonormal frame the triangle nose, port tip, starboard tip is
    equilateral with side |unit|, and the fin stands at right angles on it,
    |unit| / 2 high. *)
Theorem glyph_equilateral (t : turtle) :
  orthonormal (heading t) (normal t) ->
  dist (nose t) (port t) = Rabs (unit t)
  /\ dist (nose t) (star t) = Rabs (unit t)
  /\ dist (port t) (star t) = Rabs (unit t)
  /\ dist (fin t) (back t) = Rabs (unit t) / 2
  /\ dot (linear 1 (fin t) (-1) (back t)) (heading t) = 0
  /\ dot (linear 1 (fin t) (-1) (back t)) (left t) = 0.
Proof.
  intros HF. apply unitFrame_orthonormal in HF.
  destruct (left_unit t HF) as (HLL & HhL & HLh).
  destruct HF as (Hh & Hn & Hhn).
  assert (Hnh : dot (normal t) (heading t) = 0) by (rewrite dot_sym; exact Hhn).
  assert (E1 : linear 1 (nose t) (-1) (port t)
               = linear (unit t * ca) (heading t) (- (unit t * sa)) (left t)).
  { apply vector_eq; unfold port, back, h, linear, forXZ, x, y, z; simpl; ring. }
  assert (E2 : linear 1 (nose t) (-1) (star t)
               = linear (unit t * ca) (heading t) (unit t * sa) (left t)).
  { apply vector_eq; unfold star, back, h, linear, forXZ, x, y, z; simpl; ring. }
  assert (E3 : linear 1 (port t) (-1) (star t)
               = linear (2 * (unit t * sa)) (left t) 0 (left t)).
  { apply vector_eq; unfold port, star, h, linear, forXZ, x, y, z; simpl; ring. }
  assert (E4 : linear 1 (fin t) (-1) (back t)
               = linear (unit t * sa) (normal t) 0 (normal t)).
  { apply vector_eq; unfold fin, h, linear, forXZ, x, y, z; simpl; ring. }
  unfold dist, norm. rewrite E1, E2, E3, E4.
  rewrite !dot_linear_l, !dot_linear_r.
  rewrite ?HLL, ?HhL, ?HLh, ?Hh, ?Hn, ?Hhn, ?Hnh.
  unfold left at 1 2. rewrite dot_l_cross.
  pose proof ca_sa as Hcs.
  split; [|split; [|split; [|split; [|split]]]]; try ring.
  - replace (_ + _) with (unit t * unit t * (ca * ca + sa * sa)) by ring.
    rewrite Hcs, Rmult_1_r. apply sqrt_square_abs.
  - replace (_ + _) with (unit t * unit t * (ca * ca + sa * sa)) by ring.
    rewrite Hcs, Rmult_1_r. apply sqrt_square_abs.
  - rewrite sa_half.
    replace (_ + _) with (unit t * unit t) by field.
    apply sqrt_square_abs.
  - rewrite sa_half.
    replace (_ + _) with ((unit t / 2) * (unit t / 2)) by field.
    rewrite sqrt_square_abs. unfold Rdiv. rewrite Rabs_mult.
    rewrite (Rabs_pos_eq (/ 2)) by lra. reflexivity.
Qed.

Lemma glyph_equilateral_witness :
  dist (nose sample) (port sample) = Rabs (unit sample)
  /\ dist (nose sample) (star sample) = Rabs (unit sample)
  /\ dist (port sample) (star sample) = Rabs (unit sample)
  /\ dist (fin sample) (back sample) = Rabs (unit sample) / 2
  /\ dot (linear 1 (fin sample) (-1) (back sample)) (heading sample) = 0
  /\ dot (linear 1 (fin sample) (-1) (back sample)) (left sample) = 0.
Proof.
  apply (glyph_equilateral sample).
  apply unitFrame_orthonormal. simpl. apply unitFrame_canonical.
Defined.

(** ** Construction *)

Lemma originChar_bounds (cx : context2d) (ch : ascii) (xy : R * R) :
  0 <= canvas_height cx -> 0 <= canvas_width cx ->
  0 <= fst xy <= canvas_height cx /\ 0 <= snd xy <= canvas_width cx ->
  0 <= fst (originChar cx ch xy) <= canvas_height cx
  /\ 0 <= snd (originChar cx ch xy) <= canvas_width cx.
Proof.
  intros HH HW. destruct xy as [x0 y0]. unfold originChar. simpl. intros Hxy.
  repeat (match goal with |- context [if ?b then _ else _] => destruct b end);
    simpl; lra.
Qed.

Lemma originLoop_bounds (cx : context2d) (s : string) (xy : R * R) :
  0 <= canvas_height cx -> 0 <= canvas_width cx ->
  0 <= fst xy <= canvas_height cx /\ 0 <= snd xy <= canvas_width cx ->
  0 <= fst (originLoop cx s xy) <= canvas_height cx
  /\ 0 <= snd (originLoop cx s xy) <= canvas_width cx.
Proof.
  intros HH HW. revert xy. induction s as [|ch s IH]; intros xy Hxy; simpl.
  - exact Hxy.
  - apply IH, originChar_bounds; assumption.
Qed.

(** Whatever the origin option says, the home point of a constructed turtle
    lies on its canvas, in the plane z = 0. *)
Theorem home_on_canvas (doc : document) (dflt : defaultsT) (options : optionsT)
    (t : turtle) :
  Turtle doc dflt options = Some t ->
  0 <= canvas_height (context t) ->
  0 <= canvas_width (context t) ->
  0 <= idx (home t) x <= canvas_height (context t)
  /\ 0 <= idx (home t) y <= canvas_width (context t)
  /\ idx (home t) z = 0.
Proof.
  unfold Turtle, Init. intros H.
  destruct (doc _) as [cx|]; [|discriminate].
  injection H as <-. simpl. intros HH HW.
  assert (H0 : 0 <= fst (canvas_height cx / 2, canvas_width cx / 2) <= canvas_height cx
               /\ 0 <= snd (canvas_height cx / 2, canvas_width cx / 2) <= canvas_width cx)
    by (simpl; lra).
  destruct (o_origin options) as [s|].
  - destruct (originLoop_bounds cx s _ HH HW H0) as [Hx Hy].
    repeat split; try apply Hx; try apply Hy.
  - simpl in *. repeat split; lra.
Qed.

Lemma home_on_canvas_witness :
  0 <= idx (home sample) x <= canvas_height (context sample)
  /\ 0 <= idx (home sample) y <= canvas_width (context sample)
  /\ idx (home sample) z = 0.
Proof.
  apply (home_on_canvas sampleDocument initialDefaults noOptions sample).
  - reflexivity.
  - simpl. lra.
  - simpl. lra.
Defined.

Lemma originLoop_app (cx : context2d) (s1 s2 : string) (xy : R * R) :
  originLoop cx (s1 ++ s2) xy = originLoop cx s2 (originLoop cx s1 xy).
Proof.
  revert xy. induction s1 as [|ch s1 IH]; intros xy; simpl.
  - reflexivity.
  - apply IH.
Qed.

(** In the origin option the last letter for each axis wins: after any
    string, t, m, b set the first coordinate of home and keep the second, l,
    c, r set the second and keep the first, and any other character changes
    nothing. *)
Theorem origin_last_letter (cx : context2d) (s : string) (xy : R * R)
    (ch : ascii) :
  let before := originLoop cx s xy in
  originLoop cx (s ++ "t") xy = (0, snd before)
  /\ originLoop cx (s ++ "m") xy = (canvas_height cx / 2, snd before)
  /\ originLoop cx (s ++ "b") xy = (canvas_height cx, snd before)
  /\ originLoop cx (s ++ "l") xy = (fst before, 0)
  /\ originLoop cx (s ++ "c") xy = (fst before, canvas_width cx / 2)
  /\ originLoop cx (s ++ "r") xy = (fst before, canvas_width cx)
  /\ (originLetter ch = false ->
      originLoop cx (s ++ String ch EmptyString) xy = before).
Proof.
  intros before. rewrite !originLoop_app. fold before.
  destruct before as [x0 y0]. simpl.
  repeat (split; [reflexivity|]).
  unfold originLetter, originChar. intros H.
  repeat (match goal with |- context [Ascii.eqb ch ?c] =>
            destruct (Ascii.eqb ch c); try discriminate H end).
  reflexivity.
Qed.

Lemma origin_last_letter_witness :
  originLoop (Context 400 300 []) ("tl" ++ String "T" EmptyString) (150, 200)
  = originLoop (Context 400 300 []) "tl" (150, 200).
Proof.
  apply (origin_last_letter (Context 400 300 []) "tl" (150, 200) "T").
  reflexivity.
Defined.

(** Options that are there but falsy count as absent: a unit of 0, an empty
    canvas id and an empty origin give the turtle the defaults. *)
Theorem falsy_options (doc : document) (dflt : defaultsT)
    (og : option string) (u : option R) (cid : option string) :
  Turtle doc dflt (Options og (Some 0) cid) = Turtle doc dflt (Options og None cid)
  /\ Turtle doc dflt (Options og u (Some EmptyString))
     = Turtle doc dflt (Options og u None)
  /\ Turtle doc dflt (Options (Some EmptyString) u cid)
     = Turtle doc dflt (Options None u cid).
Proof.
  unfold Turtle, Init; simpl. repeat split.
  destruct (Req_dec_T 0 0) as [_|H]; [reflexivity|contradiction H; reflexivity].
Qed.

(** The unit of a constructed turtle is not 0 unless the default unit is. *)
Theorem unit_nonzero (doc : document) (dflt : defaultsT) (options : optionsT)
    (t : turtle) :
  Turtle doc dflt options = Some t ->
  d_unit dflt <> 0 ->
  unit t <> 0.
Proof.
  unfold Turtle, Init. intros H Hd.
  destruct (doc _) as [cx|]; [|discriminate].
  injection H as <-. simpl.
  destruct (o_unit options) as [u|]; [|exact Hd].
  destruct (Req_dec_T u 0); assumption.
Qed.

Lemma unit_nonzero_witness : unit sample <> 0.
Proof.
  apply (unit_nonzero sampleDocument initialDefaults noOptions sample).
  - reflexivity.
  - simpl. lra.
Defined.

(** ** The log *)

Lemma logging_perform (k : call) (t : turtle) :
  logging t = true ->
  logging (perform t k) = true /\ log (perform t k) = log t ++ linesOf k.
Proof.
  intros HL.
  assert (HM : forall d t, logging t = true ->
             logging (Move d t) = true /\ log (Move d t) = log t ++ [LogMove d]).
  { intros d t' H. unfold Move, draw, logLine_. rewrite H. simpl.
    destruct (pen t'); simpl; rewrite ?H; split; reflexivity. }
  assert (HR : forall psi t, logging t = true ->
             logging (Roll psi t) = true /\ log (Roll psi t) = log t ++ [LogRoll psi]).
  { intros psi t' H. unfold Roll, logLine_. rewrite H. simpl. rewrite ?H.
    split; reflexivity. }
  assert (HT : forall phi t, logging t = true ->
             logging (Turn phi t) = true /\ log (Turn phi t) = log t ++ [LogTurn phi]).
  { intros phi t' H. unfold Turn, logLine_. rewrite H. simpl. rewrite ?H.
    split; reflexivity. }
  destruct k; cbn [perform linesOf];
    try (unfold Home, Clean, PenActive, PenDown, PenUp, SetPenWidth, SetPenStyle,
           Dive, DrawTurtle, draw, logLine_;
         rewrite HL; simpl; rewrite ?HL; split; reflexivity).
  - apply HM, HL.
  - apply HT, HL.
  - apply HR, HL.
  - unfold Segment.
    destruct (HM d t HL) as [L1 E1].
    destruct (HR psi _ L1) as [L2 E2].
    destruct (HT phi _ L2) as [L3 E3].
    split; [exact L3|]. rewrite E3, E2, E1, <- !app_assoc. reflexivity.
Qed.

Lemma logging_performAll (ks : list call) (t : turtle) :
  logging t = true ->
  logging (performAll t ks) = true
  /\ log (performAll t ks) = log t ++ flat_map linesOf ks.
Proof.
  revert t. induction ks as [|k ks IH]; intros t HL; simpl.
  - rewrite app_nil_r. split; [exact HL|reflexivity].
  - destruct (logging_perform k t HL) as [L1 E1].
    destruct (IH _ L1) as [L2 E2].
    split; [exact L2|]. rewrite E2, E1, <- app_assoc. reflexivity.
Qed.

Lemma silent_perform (k : call) (t : turtle) :
  logging t = false ->
  logging (perform t k) = false /\ log (perform t k) = log t.
Proof.
  intros HL.
  assert (HM : forall d t, logging t = false ->
             logging (Move d t) = false /\ log (Move d t) = log t).
  { intros d t' H. unfold Move, draw, logLine_. rewrite H. simpl.
    destruct (pen t'); simpl; rewrite ?H; split; reflexivity. }
  assert (HR : forall psi t, logging t = false ->
             logging (Roll psi t) = false /\ log (Roll psi t) = log t).
  { intros psi t' H. unfold Roll, logLine_. rewrite H. simpl. rewrite ?H.
    split; reflexivity. }
  assert (HT : forall phi t, logging t = false ->
             logging (Turn phi t) = false /\ log (Turn phi t) = log t).
  { intros phi t' H. unfold Turn, logLine_. rewrite H. simpl. rewrite ?H.
    split; reflexivity. }
  destruct k; cbn [perform];
    try (unfold Home, Clean, PenActive, PenDown, PenUp, SetPenWidth, SetPenStyle,
           Dive, DrawTurtle, draw, logLine_;
         rewrite HL; simpl; rewrite ?HL; split; reflexivity).
  - apply HM, HL.
  - apply HT, HL.
  - apply HR, HL.
  - unfold Segment.
    destruct (HM d t HL) as [L1 E1].
    destruct (HR psi _ L1) as [L2 E2].
    destruct (HT phi _ L2) as [L3 E3].
    split; [exact L3|]. rewrite E3, E2, E1. reflexivity.
Qed.

Lemma silent_performAll (ks : list call) (t : turtle) :
  logging t = false ->
  logging (performAll t ks) = false /\ log (performAll t ks) = log t.
Proof.
  revert t. induction ks as [|k ks IH]; intros t HL; simpl.
  - split; [exact HL|reflexivity].
  - destruct (silent_perform k t HL) as [L1 E1].
    destruct (IH _ L1) as [L2 E2].
    split; [exact L2|]. rewrite E2, E1. reflexivity.
Qed.

(** When logging, each call writes its own line, a Segment the three lines
    of its parts and none of its own; when not logging, nothing is written.
    No call switches logging on or off. *)
Theorem log_grows (t : turtle) (ks : list call) :
  (logging t = true ->
     logging (performAll t ks) = true
     /\ log (performAll t ks) = log t ++ flat_map linesOf ks)
  /\ (logging t = false ->
     logging (performAll t ks) = false
     /\ log (performAll t ks) = log t).
Proof.
  split; [apply logging_performAll | apply silent_performAll].
Qed.

Lemma log_grows_witness :
  (logging (performAll sample [CSegment 1 30 45; CPenUp]) = true
   /\ log (performAll sample [CSegment 1 30 45; CPenUp])
      = log sample ++ flat_map linesOf [CSegment 1 30 45; CPenUp])
  /\ (logging (performAll (set_logging false sample) [CSegment 1 30 45; CPenUp])
        = false
      /\ log (performAll (set_logging false sample) [CSegment 1 30 45; CPenUp])
         = log (set_logging false sample)).
Proof.
  split.
  - apply (log_grows sample [CSegment 1 30 45; CPenUp]). reflexivity.
  - apply (log_grows (set_logging false sample) [CSegment 1 30 45; CPenUp]).
    reflexivity.
Defined.

(** ** The vector functions *)

(** The contract of rotateNormal: for orthonormal u, v, w the result is a
    unit vector at right angles to w that makes the angle alpha with u, on
    the side of v. *)
Theorem rotateNormal_spec (u v w : vector) (al : R) :
  norm u = 1 -> norm v = 1 ->
  dot u v = 0 -> dot u w = 0 -> dot v w = 0 ->
  norm (rotateNormal u v w al) = 1
  /\ dot (rotateNormal u v w al) w = 0
  /\ dot (rotateNormal u v w al) u = cos al
  /\ dot (rotateNormal u v w al) v = sin al.
Proof.
  intros Hu Hv Huv Huw Hvw.
  apply norm_1_dot in Hu. apply norm_1_dot in Hv.
  assert (Hvu : dot v u = 0) by (rewrite dot_sym; exact Huv).
  unfold rotateNormal. rewrite norm_1_dot.
  rewrite !dot_linear_l, !dot_linear_r, Hu, Hv, Huv, Hvu, Huw, Hvw.
  repeat split; try ring.
  generalize (sin2_cos2_mult al). lra.
Qed.

Lemma rotateNormal_spec_witness :
  norm (rotateNormal (Vec 0 1 0) (Vec (-1) 0 0) (Vec 0 0 1) (PI / 6)) = 1
  /\ dot (rotateNormal (Vec 0 1 0) (Vec (-1) 0 0) (Vec 0 0 1) (PI / 6)) (Vec 0 0 1) = 0
  /\ dot (rotateNormal (Vec 0 1 0) (Vec (-1) 0 0) (Vec 0 0 1) (PI / 6)) (Vec 0 1 0)
     = cos (PI / 6)
  /\ dot (rotateNormal (Vec 0 1 0) (Vec (-1) 0 0) (Vec 0 0 1) (PI / 6)) (Vec (-1) 0 0)
     = sin (PI / 6).
Proof.
  apply (rotateNormal_spec (Vec 0 1 0) (Vec (-1) 0 0) (Vec 0 0 1) (PI / 6)).
  - apply norm_1_dot. unfold dot; simpl. ring.
  - apply norm_1_dot. unfold dot; simpl. ring.
  - unfold dot; simpl. ring.
  - unfold dot; simpl. ring.
  - unfold dot; simpl. ring.
Defined.

(** The cross product is at right angles to both arguments, vanishes on
    equal arguments, and its length is given by Lagrange's identity; so the
    cross product of two orthonormal vectors is a unit vector. *)
Theorem cross_perpendicular (u v : vector) :
  dot (cross u v) u = 0
  /\ dot (cross u v) v = 0
  /\ cross u u = Vec 0 0 0
  /\ dot (cross u v) (cross u v) = dot u u * dot v v - dot u v * dot u v
  /\ (norm u = 1 -> norm v = 1 -> dot u v = 0 -> norm (cross u v) = 1).
Proof.
  split; [apply dot_cross_l|]. split; [apply dot_cross_r|].
  split; [apply vector_eq; unfold cross, forXZ, x, y, z; simpl; ring|].
  split; [apply dot_cross_cross|].
  intros Hu Hv Huv. apply norm_1_dot in Hu. apply norm_1_dot in Hv.
  apply norm_1_dot. rewrite dot_cross_cross, Hu, Hv, Huv. ring.
Qed.

Lemma cross_perpendicular_witness :
  norm (cross (Vec 0 0 1) (Vec 0 1 0)) = 1.
Proof.
  apply (cross_perpendicular (Vec 0 0 1) (Vec 0 1 0)).
  - apply norm_1_dot. unfold dot; simpl. ring.
  - apply norm_1_dot. unfold dot; simpl. ring.
  - unfold dot; simpl. ring.
Defined.

(** ** More on what is painted *)

Lemma drawGlyph_same (t t' : turtle) (c : string) :
  position t' = position t -> heading t' = heading t ->
  normal t' = normal t -> unit t' = unit t ->
  drawGlyph t' c = drawGlyph t c.
Proof.
  intros Hp Hh Hn Hu.
  unfold drawGlyph, drawWings, wingDecorations, drawFin, drawFinFace,
    drawFinEdge, eye, hair, fin, star, port, back, nose, a, h, left.
  rewrite Hp, Hh, Hn, Hu. reflexivity.
Qed.

(** DrawTurtle(c) paints the same eight shapes whatever the styles of the
    canvas and whatever the pen: two turtles with the same position, heading,
    normal and unit paint the same, on any two canvas states, be the pen up
    or down and of any style and width.  No colour but c and white is
    used. *)
Theorem glyph_colours (t t' : turtle) (c : string) (s s' : surface) :
  position t' = position t -> heading t' = heading t ->
  normal t' = normal t -> unit t' = unit t ->
  paints s' (drawGlyph t' c) = paints s (drawGlyph t c)
  /\ List.length (paints s (drawGlyph t c)) = 8%nat
  /\ Forall (fun p => inked c p \/ inked "white" p) (paints s (drawGlyph t c)).
Proof.
  intros Hp Hh Hn Hu.
  rewrite (drawGlyph_same t t' c Hp Hh Hn Hu), !paints_drawGlyph.
  unfold wingsPaint, decorationPaint, finPaint.
  destruct (Rge_dec (idx (normal t) z) 0);
    destruct (Rge_dec (idx (left t) z) 0); simpl;
    (split; [reflexivity|]; split; [reflexivity|]);
    repeat (constructor; [simpl; auto|]); constructor.
Qed.

Lemma glyph_colours_witness :
  paints (run blank [SetLineWidth 7; SetStrokeStyle "green"; SetFillStyle "blue"])
    (drawGlyph (PenUp (SetPenWidth 5 (SetPenStyle "green" sample))) "red")
  = paints blank (drawGlyph sample "red")
  /\ List.length (paints blank (drawGlyph sample "red")) = 8%nat
  /\ Forall (fun p => inked "red" p \/ inked "white" p)
       (paints blank (drawGlyph sample "red")).
Proof.
  apply (glyph_colours sample (PenUp (SetPenWidth 5 (SetPenStyle "green" sample)))
           "red" blank
           (run blank [SetLineWidth 7; SetStrokeStyle "green"; SetFillStyle "blue"]));
    reflexivity.
Defined.

Lemma penStyle_Move (d : R) (t : turtle) : penStyle (Move d t) = penStyle t.
Proof. by_logging t. Qed.

(** The pen draws as it was last set: after SetPenStyle(c) and
    SetPenWidth(w), a Move with the pen down paints its one line in colour c
    and width w. *)
Theorem pen_looks_used (t : turtle) (c : string) (w d : R) (s : surface) :
  pen t = true ->
  let t' := Move d (SetPenWidth w (SetPenStyle c t)) in
  exists cmds,
    issued (context t') = issued (context t) ++ cmds
    /\ paints s cmds
       = [Stroked [project (position t); project (position t')] false c w].
Proof.
  intros Hp t'.
  set (t2 := SetPenWidth w (SetPenStyle c t)).
  assert (H2 : pen t2 = true /\ penStyle t2 = c /\ penWidth t2 = w
               /\ position t2 = position t /\ context t2 = context t).
  { unfold t2. repeat split; by_logging t. }
  destruct H2 as (P2 & S2 & W2 & Pos2 & C2).
  exists (moveStroke t2 (position t')).
  unfold t'. fold t2. rewrite context_Move, P2.
  unfold issue; cbn [issued]. rewrite C2.
  split; [reflexivity|].
  rewrite paints_moveStroke, S2, W2, Pos2. reflexivity.
Qed.

Lemma pen_looks_used_witness :
  let t' := Move 2 (SetPenWidth 5 (SetPenStyle "red" sample)) in
  exists cmds,
    issued (context t') = issued (context sample) ++ cmds
    /\ paints blank cmds
       = [Stroked [project (position sample); project (position t')] false "red" 5].
Proof.
  apply (pen_looks_used sample "red" 5 2 blank). reflexivity.
Defined.
(** ** The stack of defaults *)

(** *** Properties of objects *)

Lemma getProp_setProp_same (p : string) (v : value) (o : object) :
  getProp p (setProp p v o) = Some v.
Proof.
  induction o as [|[q w] rest IH]; simpl.
  - rewrite String.eqb_refl. reflexivity.
  - destruct (String.eqb p q) eqn:E; simpl; rewrite E; [reflexivity|exact IH].
Qed.

Lemma getProp_setProp_other (p q : string) (v : value) (o : object) :
  p <> q -> getProp q (setProp p v o) = getProp q o.
Proof.
  intros Hpq. induction o as [|[r w] rest IH]; simpl.
  - destruct (String.eqb q p) eqn:E; [|reflexivity].
    apply String.eqb_eq in E. congruence.
  - destruct (String.eqb p r) eqn:E; simpl.
    + apply String.eqb_eq in E. subst r.
      destruct (String.eqb q p) eqn:E'; [|reflexivity].
      apply String.eqb_eq in E'. congruence.
    + destruct (String.eqb q r); [reflexivity|exact IH].
Qed.

Lemma setProp_fresh (p : string) (v : value) (o : object) :
  ~ In p (map fst o) -> setProp p v o = o ++ [(p, v)].
Proof.
  induction o as [|[q w] rest IH]; simpl; intros H.
  - reflexivity.
  - destruct (String.eqb p q) eqn:E.
    + apply String.eqb_eq in E. subst q. exfalso. apply H. left. reflexivity.
    + rewrite IH; [reflexivity|]. intros Hin. apply H. right. exact Hin.
Qed.

Lemma keys_setProp (p : string) (v : value) (o : object) :
  map fst (setProp p v o)
  = if in_dec string_dec p (map fst o) then map fst o else map fst o ++ [p].
Proof.
  induction o as [|[q w] rest IH]; simpl.
  - reflexivity.
  - destruct (String.eqb p q) eqn:E; simpl.
    + apply String.eqb_eq in E. subst q.
      destruct (string_dec p p) as [Ep|N]; [|contradiction N; reflexivity].
      reflexivity.
    + apply String.eqb_neq in E. rewrite IH.
      destruct (string_dec q p) as [Eq|Nq]; [symmetry in Eq; contradiction|].
      destruct (in_dec string_dec p (map fst rest)); reflexivity.
Qed.

Lemma NoDup_keys_setProp (p : string) (v : value) (o : object) :
  NoDup (map fst o) -> NoDup (map fst (setProp p v o)).
Proof.
  intros H. rewrite keys_setProp.
  destruct (in_dec string_dec p (map fst o)) as [Hin|Hnin]; [exact H|].
  apply NoDup_app; [exact H | repeat constructor; intros [] |].
  intros q Hq [<-|[]]. contradiction.
Qed.

Lemma NoDup_keys_assignAll (def o : object) :
  NoDup (map fst o) -> NoDup (map fst (assignAll def o)).
Proof.
  revert o. induction def as [|[p v] rest IH]; intros o H; simpl.
  - exact H.
  - apply IH, NoDup_keys_setProp, H.
Qed.

Lemma getProp_assignAll_other (def o : object) (q : string) :
  ~ In q (map fst def) -> getProp q (assignAll def o) = getProp q o.
Proof.
  revert o. induction def as [|[p v] rest IH]; intros o H; simpl.
  - reflexivity.
  - rewrite IH.
    + apply getProp_setProp_other. intros E. apply H. left. exact E.
    + intros Hin. apply H. right. exact Hin.
Qed.

Lemma getProp_assignAll_in (def o : object) (q : string) (v : value) :
  NoDup (map fst def) -> In (q, v) def -> getProp q (assignAll def o) = Some v.
Proof.
  revert o. induction def as [|[p w] rest IH]; intros o Hnd Hin; simpl.
  - contradiction.
  - inversion Hnd as [|p' ks Hp Hrest]; subst.
    destruct Hin as [E|Hin].
    + injection E as E1 E2. subst p w.
      rewrite getProp_assignAll_other by exact Hp.
      apply getProp_setProp_same.
    + apply IH; assumption.
Qed.

Lemma assignAll_fresh (source acc : object) :
  NoDup (map fst source) ->
  (forall p, In p (map fst source) -> ~ In p (map fst acc)) ->
  assignAll source acc = acc ++ source.
Proof.
  revert acc. induction source as [|[p v] rest IH]; intros acc Hnd Hdis; simpl.
  - rewrite app_nil_r. reflexivity.
  - inversion Hnd as [|p' ks Hp Hrest]; subst.
    rewrite setProp_fresh by (apply Hdis; left; reflexivity).
    rewrite IH; [rewrite <- app_assoc; reflexivity | exact Hrest |].
    intros q Hq. rewrite map_app. intros Hin. apply in_app_or in Hin.
    destruct Hin as [Hin|[<-|[]]].
    + apply (Hdis q); [right; exact Hq | exact Hin].
    + contradiction.
Qed.

(** A clone has the properties of its source. *)
Lemma cloneObject_same (source : object) :
  NoDup (map fst source) -> cloneObject source = source.
Proof.
  intros H. unfold cloneObject. fold (assignAll source []).
  rewrite assignAll_fresh; [reflexivity | exact H | intros p _ []].
Qed.

(** *** Properties of the store *)

Lemma top_snoc (a : list nat) (n : nat) : top (a ++ [n]) = Some n.
Proof.
  unfold top. rewrite length_app. simpl.
  replace (List.length a + 1 - 1)%nat with (List.length a) by lia.
  rewrite nth_error_app2 by lia. rewrite Nat.sub_diag. reflexivity.
Qed.

Lemma top_In (a : list nat) (n : nat) : top a = Some n -> In n a.
Proof. unfold top. apply nth_error_In. Qed.

Lemma top_some (a : list nat) : a <> [] -> exists n, top a = Some n.
Proof.
  intros H. unfold top.
  destruct (nth_error a (List.length a - 1)) as [n|] eqn:E.
  - exists n. reflexivity.
  - apply nth_error_None in E. destruct a; [contradiction|simpl in E; lia].
Qed.

Lemma length_update (addr : nat) (f : object -> object) (os : list object) :
  List.length (update addr f os) = List.length os.
Proof.
  revert addr. induction os as [|o rest IH]; intros [|addr]; simpl;
    try reflexivity. rewrite IH. reflexivity.
Qed.

Lemma nth_update_same (addr : nat) (f : object -> object) (os : list object) :
  (addr < List.length os)%nat ->
  nth addr (update addr f os) [] = f (nth addr os []).
Proof.
  revert addr. induction os as [|o rest IH]; intros [|addr] H; simpl in *;
    try lia; try reflexivity.
  apply IH. lia.
Qed.

Lemma nth_update_other (addr b : nat) (f : object -> object) (os : list object) :
  addr <> b -> nth b (update addr f os) [] = nth b os [].
Proof.
  revert addr b. induction os as [|o rest IH]; intros [|addr] [|b] H; simpl;
    try reflexivity; try contradiction.
  apply IH. lia.
Qed.

Lemma update_update (addr : nat) (f g : object -> object) (os : list object) :
  update addr g (update addr f os) = update addr (fun o => g (f o)) os.
Proof.
  revert addr. induction os as [|o rest IH]; intros [|addr]; simpl;
    try reflexivity. rewrite IH. reflexivity.
Qed.

Lemma update_ext (addr : nat) (f g : object -> object) (os : list object) :
  (forall o, f o = g o) -> update addr f os = update addr g os.
Proof.
  intros H. revert addr. induction os as [|o rest IH]; intros [|addr]; simpl;
    try reflexivity.
  - rewrite H. reflexivity.
  - rewrite IH. reflexivity.
Qed.

Lemma update_same (addr : nat) (os : list object) :
  update addr (fun o => o) os = os.
Proof.
  revert addr. induction os as [|o rest IH]; intros [|addr]; simpl;
    try reflexivity. rewrite IH. reflexivity.
Qed.

Lemma Forall_update (P : object -> Prop) (addr : nat) (f : object -> object)
    (os : list object) :
  (forall o, P o -> P (f o)) -> Forall P os -> Forall P (update addr f os).
Proof.
  intros Hf H. revert addr. induction H as [|o rest Ho Hrest IH]; intros [|addr];
    simpl; constructor; auto.
Qed.

(** With something on the stack, SetDefaults makes all its assignments on
    the object on top. *)
Lemma SetDefaults_top (def : object) (st : store) (addr : nat) :
  top (defaults st) = Some addr ->
  SetDefaults def st
  = Some (Store (update addr (assignAll def) (objects st)) (defaults st)).
Proof.
  revert st. induction def as [|[p v] rest IH]; intros st H; simpl.
  - unfold assignAll. simpl. rewrite update_same. destruct st; reflexivity.
  - rewrite H, IH by exact H. simpl. rewrite update_update. reflexivity.
Qed.

Lemma wellFormed_initial : wellFormed initialStore.
Proof.
  unfold wellFormed, initialStore; simpl. split; [discriminate|].
  split; [repeat constructor; intros []|].
  split; [repeat constructor|].
  repeat constructor; simpl; intuition discriminate.
Qed.

Lemma wellFormed_update (st : store) (addr : nat) (def : object) :
  wellFormed st ->
  wellFormed (Store (update addr (assignAll def) (objects st)) (defaults st)).
Proof.
  intros (H1 & H2 & H3 & H4). unfold wellFormed; simpl.
  rewrite length_update. repeat split; try assumption.
  apply Forall_update; [|exact H4].
  intros o. apply NoDup_keys_assignAll.
Qed.

Lemma wellFormed_SetDefaults (def : object) (st : store) :
  wellFormed st ->
  exists st', SetDefaults def st = Some st' /\ wellFormed st'
              /\ defaults st' = defaults st.
Proof.
  intros H. destruct (top_some (defaults st) (proj1 H)) as [addr Ht].
  rewrite (SetDefaults_top def st addr Ht).
  eexists. split; [reflexivity|]. split; [apply wellFormed_update, H|reflexivity].
Qed.

Lemma wellFormed_pushed (st : store) :
  wellFormed st ->
  forall source, NoDup (map fst source) ->
  wellFormed (Store (objects st ++ [source])
                    (defaults st ++ [List.length (objects st)])).
Proof.
  intros (H1 & H2 & H3 & H4) source Hs. unfold wellFormed; simpl.
  split; [intros E; apply app_eq_nil in E; destruct E; discriminate|].
  split.
  { apply NoDup_app; [exact H2 | repeat constructor; intros [] |].
    intros addr Hin [<-|[]].
    rewrite Forall_forall in H3. apply H3 in Hin. lia. }
  split.
  { rewrite length_app. simpl. apply Forall_app. split.
    - eapply Forall_impl; [|exact H3]. simpl. intros; lia.
    - repeat constructor. lia. }
  apply Forall_app. split; [exact H4|repeat constructor; exact Hs].
Qed.

Lemma NoDup_keys_deref (st : store) (addr : nat) :
  wellFormed st -> NoDup (map fst (deref st addr)).
Proof.
  intros (_ & _ & _ & H4). unfold deref.
  destruct (Nat.lt_ge_cases addr (List.length (objects st))) as [Hlt|Hge].
  - rewrite Forall_forall in H4. apply H4, nth_In, Hlt.
  - rewrite nth_overflow by exact Hge. constructor.
Qed.

Lemma wellFormed_PushDefaults (def : object) (st : store) :
  wellFormed st ->
  exists st', PushDefaults def st = Some st' /\ wellFormed st'.
Proof.
  intros H. unfold PushDefaults.
  destruct (top_some (defaults st) (proj1 H)) as [addr Ht]. rewrite Ht.
  rewrite (cloneObject_same _ (NoDup_keys_deref st addr H)).
  pose proof (wellFormed_pushed st H _ (NoDup_keys_deref st addr H)) as H'.
  destruct (wellFormed_SetDefaults def _ H') as (st' & E & W & _).
  exists st'. split; assumption.
Qed.

Lemma wellFormed_PopDefaults (st : store) :
  wellFormed st -> wellFormed (PopDefaults st).
Proof.
  intros H. unfold PopDefaults.
  destruct (1 <? List.length (defaults st))%nat eqn:E; [|exact H].
  apply Nat.ltb_lt in E. destruct H as (H1 & H2 & H3 & H4).
  destruct (exists_last H1) as (front & n & Hd).
  unfold wellFormed; simpl. rewrite Hd in *. rewrite removelast_last.
  rewrite length_app in E. simpl in E.
  split; [destruct front; [simpl in E; lia|discriminate]|].
  split; [apply NoDup_remove_1 in H2; rewrite app_nil_r in H2; exact H2|].
  split; [apply Forall_app in H3; apply H3|exact H4].
Qed.

Lemma wellFormed_performAllD (ks : list defaultsCall) (st : store) :
  wellFormed st ->
  exists st', performAllD st ks = Some st' /\ wellFormed st'.
Proof.
  revert st. induction ks as [|k ks IH]; intros st H; simpl.
  - exists st. split; [reflexivity|exact H].
  - assert (Hk : exists st1, performD st k = Some st1 /\ wellFormed st1).
    { destruct k; simpl.
      - destruct (wellFormed_SetDefaults def st H) as (st1 & E & W & _).
        exists st1. split; assumption.
      - apply wellFormed_PushDefaults, H.
      - eexists. split; [reflexivity|]. apply wellFormed_PopDefaults, H. }
    destruct Hk as (st1 & -> & W). apply IH, W.
Qed.

(** Whatever is pushed, set and popped, in whatever order, no operation
    fails and the stack of defaults never gets empty: there is always a top
    object for GetDefaults and the constructor to read. *)
Theorem defaults_never_empty (ks : list defaultsCall) :
  exists st o,
    performAllD initialStore ks = Some st
    /\ GetDefaults st = Some o
    /\ (1 <= List.length (defaults st))%nat.
Proof.
  destruct (wellFormed_performAllD ks initialStore wellFormed_initial)
    as (st & E & W).
  destruct (top_some (defaults st) (proj1 W)) as [addr Ht].
  exists st, (deref st addr). split; [exact E|].
  split; [unfold GetDefaults; rewrite Ht; reflexivity|].
  apply top_In in Ht. destruct (defaults st); [contradiction|simpl; lia].
Qed.

Lemma top_bound (st : store) (addr : nat) :
  wellFormed st -> In addr (defaults st) ->
  (addr < List.length (objects st))%nat.
Proof.
  intros (_ & _ & H3 & _) Hin. rewrite Forall_forall in H3. apply H3, Hin.
Qed.

(** SetDefaults(def) changes the top defaults only: there the properties
    named in def get the values of def and the others keep theirs; the
    defaults below the top are unaffected. *)
Theorem SetDefaults_updates (def : object) (st : store) :
  wellFormed st ->
  exists st' o o',
    GetDefaults st = Some o
    /\ SetDefaults def st = Some st'
    /\ GetDefaults st' = Some o'
    /\ defaults st' = defaults st
    /\ (forall p, ~ In p (map fst def) -> getProp p o' = getProp p o)
    /\ (NoDup (map fst def) ->
        forall p v, In (p, v) def -> getProp p o' = Some v)
    /\ (forall b, top (defaults st) <> Some b -> deref st' b = deref st b).
Proof.
  intros W. destruct (top_some (defaults st) (proj1 W)) as [addr Ht].
  pose proof (top_bound st addr W (top_In _ _ Ht)) as Hlt.
  eexists. exists (deref st addr), (assignAll def (deref st addr)).
  split; [unfold GetDefaults; rewrite Ht; reflexivity|].
  split; [apply (SetDefaults_top def st addr Ht)|].
  split.
  { unfold GetDefaults, deref; simpl. rewrite Ht.
    rewrite nth_update_same by exact Hlt. reflexivity. }
  split; [reflexivity|].
  split; [intros p Hp; apply getProp_assignAll_other, Hp|].
  split; [intros Hnd p v Hin; apply getProp_assignAll_in; assumption|].
  intros b Hb. unfold deref; simpl. apply nth_update_other.
  intros E. apply Hb. rewrite Ht, E. reflexivity.
Qed.

Lemma SetDefaults_updates_witness :
  exists st' o o',
    GetDefaults initialStore = Some o
    /\ SetDefaults [("canvasID"%string, VStr "TGexample1")] initialStore = Some st'
    /\ GetDefaults st' = Some o'
    /\ defaults st' = defaults initialStore
    /\ (forall p, ~ In p (map fst [("canvasID"%string, VStr "TGexample1")]) ->
        getProp p o' = getProp p o)
    /\ (NoDup (map fst [("canvasID"%string, VStr "TGexample1")]) ->
        forall p v, In (p, v) [("canvasID"%string, VStr "TGexample1")] ->
        getProp p o' = Some v)
    /\ (forall b, top (defaults initialStore) <> Some b ->
        deref st' b = deref initialStore b).
Proof.
  apply (SetDefaults_updates [("canvasID"%string, VStr "TGexample1")] initialStore).
  apply wellFormed_initial.
Defined.

Lemma pushed_store (def : object) (st : store) :
  wellFormed st ->
  exists addr,
    top (defaults st) = Some addr
    /\ PushDefaults def st
       = Some (Store (update (List.length (objects st)) (assignAll def)
                        (objects st ++ [deref st addr]))
                     (defaults st ++ [List.length (objects st)])).
Proof.
  intros W. destruct (top_some (defaults st) (proj1 W)) as [addr Ht].
  exists addr. split; [exact Ht|].
  unfold PushDefaults. rewrite Ht.
  rewrite (cloneObject_same _ (NoDup_keys_deref st addr W)).
  apply SetDefaults_top. simpl. apply top_snoc.
Qed.

Lemma nth_pushed_new (os : list object) (o : object) (f : object -> object) :
  nth (List.length os) (update (List.length os) f (os ++ [o])) [] = f o.
Proof.
  rewrite nth_update_same by (rewrite length_app; simpl; lia).
  rewrite app_nth2 by lia. rewrite Nat.sub_diag. reflexivity.
Qed.

Lemma nth_pushed_old (os : list object) (o : object) (f : object -> object)
    (b : nat) :
  (b < List.length os)%nat ->
  nth b (update (List.length os) f (os ++ [o])) [] = nth b os [].
Proof.
  intros H. rewrite nth_update_other by lia. apply app_nth1, H.
Qed.

(** PushDefaults(def) puts on the stack a new object that has the values of
    def for the properties named in def and the values of the former top for
    the others; every object that was on the stack, the former top included,
    is unaffected. *)
Theorem PushDefaults_inherits (def : object) (st : store) :
  wellFormed st ->
  exists st' o o',
    GetDefaults st = Some o
    /\ PushDefaults def st = Some st'
    /\ GetDefaults st' = Some o'
    /\ defaults st' = defaults st ++ [List.length (objects st)]
    /\ (forall p, ~ In p (map fst def) -> getProp p o' = getProp p o)
    /\ (NoDup (map fst def) ->
        forall p v, In (p, v) def -> getProp p o' = Some v)
    /\ (forall b, In b (defaults st) -> deref st' b = deref st b).
Proof.
  intros W. destruct (pushed_store def st W) as (addr & Ht & E).
  eexists. exists (deref st addr), (assignAll def (deref st addr)).
  split; [unfold GetDefaults; rewrite Ht; reflexivity|].
  split; [exact E|].
  split.
  { unfold GetDefaults, deref; simpl. rewrite top_snoc, nth_pushed_new.
    reflexivity. }
  split; [reflexivity|].
  split; [intros p Hp; apply getProp_assignAll_other, Hp|].
  split; [intros Hnd p v Hin; apply getProp_assignAll_in; assumption|].
  intros b Hb. unfold deref; simpl. apply nth_pushed_old, top_bound; assumption.
Qed.

Lemma PushDefaults_inherits_witness :
  exists st' o o',
    GetDefaults initialStore = Some o
    /\ PushDefaults [("canvasID"%string, VStr "TGexample2")] initialStore = Some st'
    /\ GetDefaults st' = Some o'
    /\ defaults st' = defaults initialStore ++ [List.length (objects initialStore)]
    /\ (forall p, ~ In p (map fst [("canvasID"%string, VStr "TGexample2")]) ->
        getProp p o' = getProp p o)
    /\ (NoDup (map fst [("canvasID"%string, VStr "TGexample2")]) ->
        forall p v, In (p, v) [("canvasID"%string, VStr "TGexample2")] ->
        getProp p o' = Some v)
    /\ (forall b, In b (defaults initialStore) ->
        deref st' b = deref initialStore b).
Proof.
  apply (PushDefaults_inherits [("canvasID"%string, VStr "TGexample2")] initialStore).
  apply wellFormed_initial.
Defined.

Lemma sets_on_top (ds : list object) (rest : list defaultsCall) (st : store)
    (addr : nat) :
  top (defaults st) = Some addr ->
  exists f,
    performAllD st (map DSet ds ++ rest)
    = performAllD (Store (update addr f (objects st)) (defaults st)) rest.
Proof.
  revert st. induction ds as [|def ds IH]; intros st Ht; simpl.
  - exists (fun o => o). rewrite update_same. destruct st; reflexivity.
  - rewrite (SetDefaults_top def st addr Ht).
    destruct (IH (Store (update addr (assignAll def) (objects st)) (defaults st)) Ht)
      as [f ->].
    simpl. rewrite update_update. eexists. reflexivity.
Qed.

(** A scope of defaults closes without a trace: after PushDefaults(def),
    any number of SetDefaults, and PopDefaults, the stack and every object on
    it are as before, so that GetDefaults gives what it gave before. *)
Theorem defaults_scope_restores (def : object) (ds : list object) (st : store) :
  wellFormed st ->
  exists st',
    performAllD st (DPush def :: map DSet ds ++ [DPop]) = Some st'
    /\ defaults st' = defaults st
    /\ (forall b, In b (defaults st) -> deref st' b = deref st b)
    /\ GetDefaults st' = GetDefaults st.
Proof.
  intros W. destruct (pushed_store def st W) as (addr & Ht & E).
  cbn [performAllD performD]. rewrite E.
  match goal with |- context [performAllD ?s (map DSet ds ++ [DPop])] =>
    assert (Ht1 : top (defaults s) = Some (List.length (objects st)))
      by apply top_snoc;
    destruct (sets_on_top ds [DPop] s _ Ht1) as [f ->]
  end.
  cbn [performAllD performD objects defaults]. rewrite update_update.
  unfold PopDefaults; cbn [objects defaults].
  assert (Hlen : (1 <? List.length (defaults st ++ [List.length (objects st)]))%nat = true).
  { apply Nat.ltb_lt. rewrite length_app. simpl.
    pose proof (top_In _ _ Ht) as Hin.
    destruct (defaults st); [contradiction|simpl; lia]. }
  rewrite Hlen, removelast_last.
  eexists. split; [reflexivity|]. split; [reflexivity|].
  assert (Hold : forall b, In b (defaults st) ->
            deref (Store (update (List.length (objects st))
                            (fun o => f (assignAll def o))
                            (objects st ++ [deref st addr])) (defaults st)) b
            = deref st b).
  { intros b Hb. unfold deref at 1; cbn [objects].
    apply nth_pushed_old, top_bound; assumption. }
  split; [exact Hold|].
  unfold GetDefaults; cbn [defaults]. rewrite Ht.
  rewrite Hold by (apply top_In, Ht). reflexivity.
Qed.

Lemma defaults_scope_restores_witness :
  exists st',
    performAllD initialStore
      (DPush [("canvasID"%string, VStr "TGexample2")]
       :: map DSet [[("unit"%string, VNum 10)]] ++ [DPop]) = Some st'
    /\ defaults st' = defaults initialStore
    /\ (forall b, In b (defaults initialStore) -> deref st' b = deref initialStore b)
    /\ GetDefaults st' = GetDefaults initialStore.
Proof.
  apply (defaults_scope_restores [("canvasID"%string, VStr "TGexample2")]
           [[("unit"%string, VNum 10)]] initialStore).
  apply wellFormed_initial.
Defined.

Lemma Turtle_noOptions (doc : document) (dflt : defaultsT) (t : turtle) :
  Turtle doc dflt noOptions = Some t ->
  unit t = d_unit dflt /\ canvasID t = d_canvasID dflt.
Proof.
  unfold Turtle, Init; simpl. intros H.
  destruct (doc _); [|discriminate]. injection H as <-. split; reflexivity.
Qed.

(** Defaults are scoped: a turtle constructed without options after
    PushDefaults({unit: u}) has unit u and the canvas of the defaults in force
    before, and after PopDefaults the constructor does what it did before the
    push. *)
Theorem scoped_unit (st : store) (dflt : defaultsT) (u : R) (doc : document) :
  wellFormed st ->
  topDefaults st = Some dflt ->
  exists st',
    PushDefaults [("unit"%string, VNum u)] st = Some st'
    /\ topDefaults st' = Some (Defaults (d_canvasID dflt) u)
    /\ (forall t, TurtleIn st' doc noOptions = Some t ->
        unit t = u /\ canvasID t = d_canvasID dflt)
    /\ TurtleIn (PopDefaults st') doc noOptions = TurtleIn st doc noOptions.
Proof.
  intros W Hd.
  destruct (pushed_store [("unit"%string, VNum u)] st W) as (addr & Ht & E).
  eexists. split; [exact E|].
  assert (Hget : GetDefaults st = Some (deref st addr))
    by (unfold GetDefaults; rewrite Ht; reflexivity).
  unfold topDefaults in Hd. rewrite Hget in Hd.
  destruct (getProp "canvasID" (deref st addr)) as [[r|id]|] eqn:Eid;
    try discriminate Hd.
  destruct (getProp "unit" (deref st addr)) as [[u0|s0]|] eqn:Eu;
    try discriminate Hd.
  injection Hd as <-.
  assert (Htop : topDefaults
            (Store (update (List.length (objects st))
                      (assignAll [("unit"%string, VNum u)])
                      (objects st ++ [deref st addr]))
                   (defaults st ++ [List.length (objects st)]))
          = Some (Defaults id u)).
  { match goal with |- topDefaults ?s = _ =>
      assert (Hg : GetDefaults s
                   = Some (setProp "unit" (VNum u) (deref st addr)))
    end.
    { unfold GetDefaults; cbn [defaults]. rewrite top_snoc.
      unfold deref at 1; cbn [objects]. rewrite nth_pushed_new. reflexivity. }
    unfold topDefaults. rewrite Hg.
    rewrite getProp_setProp_other by discriminate.
    rewrite getProp_setProp_same, Eid. reflexivity. }
  split; [exact Htop|].
  split.
  { intros t Ht'. unfold TurtleIn in Ht'. rewrite Htop in Ht'.
    apply Turtle_noOptions in Ht'. exact Ht'. }
  match goal with |- TurtleIn ?s _ _ = _ =>
    assert (Hg : GetDefaults s = GetDefaults st)
  end.
  { unfold PopDefaults; cbn [objects defaults].
    assert (Hlen : (1 <? List.length (defaults st ++ [List.length (objects st)]))%nat
                   = true).
    { apply Nat.ltb_lt. rewrite length_app. simpl.
      pose proof (top_In _ _ Ht) as Hin.
      destruct (defaults st); [contradiction|simpl; lia]. }
    rewrite Hlen, removelast_last.
    unfold GetDefaults; cbn [defaults]. rewrite Ht.
    unfold deref at 1; cbn [objects].
    rewrite nth_pushed_old by (apply top_bound; [exact W|apply top_In, Ht]).
    reflexivity. }
  unfold TurtleIn, topDefaults. rewrite Hg. reflexivity.
Qed.

Lemma scoped_unit_witness :
  exists st',
    PushDefaults [("unit"%string, VNum 10)] initialStore = Some st'
    /\ topDefaults st' = Some (Defaults (d_canvasID initialDefaults) 10)
    /\ (forall t, TurtleIn st' sampleDocument noOptions = Some t ->
        unit t = 10 /\ canvasID t = d_canvasID initialDefaults)
    /\ TurtleIn (PopDefaults st') sampleDocument noOptions
       = TurtleIn initialStore sampleDocument noOptions.
Proof.
  apply (scoped_unit initialStore initialDefaults 10 sampleDocument).
  - apply wellFormed_initial.
  - reflexivity.
Defined.

(** ** The frame in double arithmetic *)

(** Over the reals already, Dive does not bring a frame back to unit
    length: on an orthogonal pair of squared length q each, it leaves normal
    at q and takes heading to q * q * q, so that a deviation of the lengths
    from 1 grows threefold with each call. *)
Lemma Dive_cubes_length (t : turtle) (theta q : R) :
  dot (heading t) (heading t) = q ->
  dot (normal t) (normal t) = q ->
  dot (heading t) (normal t) = 0 ->
  dot (normal (Dive theta t)) (normal (Dive theta t)) = q
  /\ dot (heading (Dive theta t)) (heading (Dive theta t)) = q * q * q
  /\ dot (heading (Dive theta t)) (normal (Dive theta t)) = 0.
Proof.
  intros Hh Hn Hhn.
  assert (Hnh : dot (normal t) (heading t) = 0) by (rewrite dot_sym; exact Hhn).
  rewrite heading_Dive. rewrite dot_cross_cross, dot_cross_r.
  rewrite normal_Dive, !dot_linear_l, !dot_linear_r.
  rewrite dot_cross_cross, dot_cross_l, dot_cross_r, Hh, Hn, Hhn, Hnh.
  generalize (sin2_cos2_mult (theta * Degree)).
  set (cs := cos (theta * Degree)). set (sn := sin (theta * Degree)). intros H.
  assert (Hq : cs * (cs * q + sn * 0) + sn * (cs * 0 + sn * q) = q).
  { replace (cs * (cs * q + sn * 0) + sn * (cs * 0 + sn * q))
      with ((cs * cs + sn * sn) * q) by ring.
    rewrite H. ring. }
  rewrite Hq. repeat split; ring.
Qed.

Lemma iter_ext (A : Type) (f g : A -> A) (n : nat) (a0 : A) :
  (forall b, f b = g b) -> Nat.iter n f a0 = Nat.iter n g a0.
Proof.
  intros H. induction n as [|n IH]; simpl; [reflexivity|].
  rewrite IH. apply H.
Qed.

Section DoubleArithmetic.

Import PrimFloat.

Lemma Dive_values (Math_cos Math_sin : float -> float) (theta : float)
    (f : Double.frame) :
  Double.Dive Math_cos Math_sin theta f
  = Double.Dive (fun _ => Math_cos (theta * Double.Degree)%float)
                (fun _ => Math_sin (theta * Double.Degree)%float) theta f.
Proof. reflexivity. Qed.

Lemma Roll_Turn_values (Math_cos Math_sin : float -> float) (angle : float)
    (f : Double.frame) :
  Double.Turn Math_cos Math_sin angle (Double.Roll Math_cos Math_sin angle f)
  = Double.Turn (fun _ => Math_cos (angle * Double.Degree)%float)
                (fun _ => Math_sin (angle * Double.Degree)%float) angle
      (Double.Roll (fun _ => Math_cos (angle * Double.Degree)%float)
                   (fun _ => Math_sin (angle * Double.Degree)%float) angle f).
Proof. reflexivity. Qed.

(** C1, in the arithmetic of the code.  Let Math.cos and Math.sin give, at
    30 degrees, the nearest double or one of its two neighbours.  Starting
    from the canonical frame, after 40 calls Dive(30) |heading| is not 1
    within 2^-29 (a tolerance above 1e-9), after 80 calls it is not 1 within
    1/2, and after 150 times Roll(30); Turn(30) it is not 1 within 1/4: the
    frame does not stay orthonormal, rounding errors grow with every call. *)
Theorem double_frame_drifts (Math_cos Math_sin : float -> float) :
  In (Math_cos (30 * Double.Degree)%float) Double.cos30s ->
  In (Math_sin (30 * Double.Degree)%float) Double.sin30s ->
  let Dive30 := Double.Dive Math_cos Math_sin 30 in
  let RollTurn30 :=
    fun f => Double.Turn Math_cos Math_sin 30 (Double.Roll Math_cos Math_sin 30 f) in
  Double.within 0x1p-29
    (Double.norm (Double.heading (Nat.iter 40 Dive30 Double.canonical))) = false
  /\ Double.within 0x1p-1
       (Double.norm (Double.heading (Nat.iter 80 Dive30 Double.canonical))) = false
  /\ Double.within 0x1p-2
       (Double.norm (Double.heading (Nat.iter 150 RollTurn30 Double.canonical)))
     = false.
Proof.
  intros Hc Hs Dive30 RollTurn30. unfold Dive30, RollTurn30.
  rewrite (iter_ext _ _ _ 40%nat Double.canonical (Dive_values Math_cos Math_sin 30)).
  rewrite (iter_ext _ _ _ 80%nat Double.canonical (Dive_values Math_cos Math_sin 30)).
  rewrite (iter_ext _ _ _ 150%nat Double.canonical
             (Roll_Turn_values Math_cos Math_sin 30)).
  revert Hc Hs.
  generalize (Math_cos (30 * Double.Degree)%float).
  generalize (Math_sin (30 * Double.Degree)%float).
  intros sn cs Hc Hs.
  destruct Hc as [<-|[<-|[<-|[]]]]; destruct Hs as [<-|[<-|[<-|[]]]];
    (split; [|split]); vm_compute; reflexivity.
Qed.

Lemma double_frame_drifts_witness :
  let Math_cos := fun _ : float => 0x1.bb67ae8584cabp-1%float in
  let Math_sin := fun _ : float => 0x1.fffffffffffffp-2%float in
  let Dive30 := Double.Dive Math_cos Math_sin 30 in
  let RollTurn30 :=
    fun f => Double.Turn Math_cos Math_sin 30 (Double.Roll Math_cos Math_sin 30 f) in
  Double.within 0x1p-29
    (Double.norm (Double.heading (Nat.iter 40 Dive30 Double.canonical))) = false
  /\ Double.within 0x1p-1
       (Double.norm (Double.heading (Nat.iter 80 Dive30 Double.canonical))) = false
  /\ Double.within 0x1p-2
       (Double.norm (Double.heading (Nat.iter 150 RollTurn30 Double.canonical)))
     = false.
Proof.
  intros Math_cos Math_sin.
  apply (double_frame_drifts Math_cos Math_sin).
  - right. left. reflexivity.
  - right. left. reflexivity.
Defined.

End DoubleArithmetic.
